(** * A shallow embedding of scripts/standalone_cambridge.py

    The scraper builds a Cambridge Dictionary URL, fetches the page, walks
    the BeautifulSoup tree of the page into a lookup record and optionally
    renders that record as an HTML card.  This file embeds [build_url],
    [normalize_text], the BeautifulSoup queries the parser uses, the
    recursive [extract_definitions], [parse_cambridge] and [render_html].

    Conventions of the embedding:
    - a Python [str] is a list of Unicode code points ([str] below);
      string literals are written with [txt], in which the character
      backquote stands for the double-quote character (the script itself
      has no backquote in any of the texts modelled here);
    - the parsed page is the tree BeautifulSoup builds with "html.parser";
      the HTML tokenizer itself is not modelled, [parse_cambridge] takes the
      document tree;
    - Python exceptions are the constructors of [exn]; a computation that
      may raise returns [exn + A]. *)

From Stdlib Require Import List Arith NArith String Ascii Bool Lia DecimalString.
Import ListNotations.

Open Scope N_scope.

(* ------------------------------------------------------------------ *)
(** ** Text *)

Definition str := list N.

Definition txt (s : string) : str :=
  map (fun a => let n := N_of_ascii a in if N.eqb n 96 then 34 else n)
      (list_ascii_of_string s).

Fixpoint str_eqb (a b : str) : bool :=
  match a, b with
  | [], [] => true
  | x :: a', y :: b' => N.eqb x y && str_eqb a' b'
  | _, _ => false
  end.

(** Python truthiness of a [str]: non-empty. *)
Definition nonempty (s : str) : bool :=
  match s with [] => false | _ => true end.

(** [str.isspace] and the [\s] class of [re] on [str] patterns: both use
    [Py_UNICODE_ISSPACE]. *)
Definition py_spaces : list N :=
  [9; 10; 11; 12; 13; 28; 29; 30; 31; 32; 133; 160; 5760;
   8192; 8193; 8194; 8195; 8196; 8197; 8198; 8199; 8200; 8201; 8202;
   8232; 8233; 8239; 8287; 12288].

Definition is_space (c : N) : bool := existsb (N.eqb c) py_spaces.

Fixpoint lstrip (s : str) : str :=
  match s with
  | c :: r => if is_space c then lstrip r else s
  | [] => []
  end.

(** [s.strip()] *)
Definition strip (s : str) : str := rev (lstrip (rev (lstrip s))).

(** [sep.join(l)] *)
Fixpoint join (sep : str) (l : list str) : str :=
  match l with
  | [] => []
  | [x] => x
  | x :: r => x ++ sep ++ join sep r
  end.

(** [needle in hay] for strings. *)
Fixpoint is_prefix (p s : str) : bool :=
  match p, s with
  | [], _ => true
  | x :: p', y :: s' => N.eqb x y && is_prefix p' s'
  | _, [] => false
  end.

Fixpoint is_infix (p s : str) : bool :=
  is_prefix p s || match s with [] => false | _ :: s' => is_infix p s' end.

(** [s.replace(old, '')] for a non-empty [old]: occurrences are removed
    left to right without overlap. *)
Fixpoint remove_all_fuel (fuel : nat) (old s : str) : str :=
  match fuel with
  | O => s
  | S fuel' =>
      match s with
      | [] => []
      | c :: r =>
          if is_prefix old s then remove_all_fuel fuel' old (skipn (List.length old) s)
          else c :: remove_all_fuel fuel' old r
      end
  end.

Definition remove_all (old s : str) : str := remove_all_fuel (S (List.length s)) old s.

(** *** normalize_text *)

(** [re.sub(r"\s+", " ", text)]: every maximal run of whitespace becomes
    one space; [in_ws] says whether the previous character was one. *)
Fixpoint collapse_ws (in_ws : bool) (s : str) : str :=
  match s with
  | [] => []
  | c :: r =>
      if is_space c then (if in_ws then collapse_ws true r else 32 :: collapse_ws true r)
      else c :: collapse_ws false r
  end.

(** [re.sub(r"\s+([P])", r"\1", text)] for a class [P]: a run of
    whitespace directly before a character of [P] is deleted; [pending] is
    the run read so far. *)
Fixpoint drop_ws_before (P : N -> bool) (pending : str) (s : str) : str :=
  match s with
  | [] => pending
  | c :: r =>
      if is_space c then drop_ws_before P (pending ++ [c]) r
      else if P c then c :: drop_ws_before P [] r
      else pending ++ c :: drop_ws_before P [] r
  end.

(** [re.sub(r"\(\s+", "(", text)]: the whitespace run after an opening
    parenthesis is deleted; [after] says whether we are right after one. *)
Fixpoint drop_ws_after_open (after : bool) (s : str) : str :=
  match s with
  | [] => []
  | c :: r =>
      if after && is_space c then drop_ws_after_open true r
      else if N.eqb c 40 then c :: drop_ws_after_open true r
      else c :: drop_ws_after_open false r
  end.

(** The class [[,.;:!?]]. *)
Definition is_punct (c : N) : bool := existsb (N.eqb c) [44; 46; 59; 58; 33; 63].

Definition is_close_paren (c : N) : bool := N.eqb c 41.

Definition normalize_text (text : str) : str :=
  let text := strip (collapse_ws false text) in
  let text := drop_ws_before is_punct [] text in
  let text := drop_ws_after_open false text in
  drop_ws_before is_close_paren [] text.

Example normalize_text_ex :
  normalize_text (txt "  to  move ( quickly ) , now ") = txt "to move (quickly), now".
Proof. reflexivity. Qed.

(* ------------------------------------------------------------------ *)
(** ** The BeautifulSoup tree *)

(** A node of the tree: a [NavigableString] or a [Tag].  The [class]
    attribute is multi-valued in BeautifulSoup: the builder splits its value
    on whitespace into a list ([None]: the attribute is absent;
    [Some []]: present with an empty or blank value).  The other attributes
    are plain strings. *)
#[local] Set Warnings "-register-all".
Inductive node : Type :=
| Text (s : str)
| Tag (name : str) (cls : option (list str)) (attrs : list (str * str)) (kids : list node).

Definition class_of (n : node) : option (list str) :=
  match n with Tag _ c _ _ => c | Text _ => None end.

Definition children (n : node) : list node :=
  match n with Tag _ _ _ k => k | Text _ => [] end.

Fixpoint assoc (k : str) (l : list (str * str)) : option str :=
  match l with
  | [] => None
  | (k', v) :: r => if str_eqb k k' then Some v else assoc k r
  end.

(** [tag.get(k)] for a single-valued attribute. *)
Definition get_attr (k : str) (n : node) : option str :=
  match n with Tag _ _ a _ => assoc k a | Text _ => None end.

(** [block.get('class', [''])[0]]; [None] is the [IndexError] of [[][0]]. *)
Definition class_first (cls : option (list str)) : option str :=
  match cls with
  | None => Some []
  | Some [] => None
  | Some (c :: _) => Some c
  end.

Fixpoint node_depth (n : node) : nat :=
  match n with
  | Text _ => 1
  | Tag _ _ _ kids => S (fold_right (fun k m => Nat.max (node_depth k) m) 0%nat kids)
  end.

(** A node together with its ancestors, nearest first: what [find_parent]
    climbs. *)
Definition located := (node * list node)%type.

(** [n.descendants] in document order, each with its ancestors. *)
Fixpoint descendants (anc : list node) (n : node) : list located :=
  match n with
  | Text _ => []
  | Tag _ _ _ kids =>
      (fix go (ks : list node) : list located :=
         match ks with
         | [] => []
         | k :: ks' => (k, n :: anc) :: descendants (n :: anc) k ++ go ks'
         end) kids
  end.

(** [n._all_strings()]: the text nodes below [n] in document order. *)
Fixpoint strings (n : node) : list str :=
  match n with
  | Text s => [s]
  | Tag _ _ _ kids => flat_map strings kids
  end.

(** [tag.get_text()] *)
Definition get_text (n : node) : str := List.concat (strings n).

(** [tag.get_text(sep, strip=True)]: each string stripped, empty ones
    dropped, the rest joined with [sep]. *)
Definition get_text_strip (sep : str) (n : node) : str :=
  join sep (filter nonempty (map strip (strings n))).

(** *** Matching [class_] *)

(** The three kinds of [class_] argument the script passes. *)
Inductive class_filter : Type :=
| ClassIs (x : str)      (** a string *)
| ClassSenseBody         (** [re.compile("sense-body|runon-body pad-indent")] *)
| ClassDsense.           (** [lambda c: c and "dsense" in c] *)

(** [SoupStrainer._matches] against one string value. *)
Definition match_class_value (f : class_filter) (v : str) : bool :=
  match f with
  | ClassIs x => str_eqb v x
  | ClassSenseBody => is_infix (txt "sense-body") v || is_infix (txt "runon-body pad-indent") v
  | ClassDsense => nonempty v && is_infix (txt "dsense") v
  end.

(** [SoupStrainer._matches] against the class attribute: a list value
    matches when one of its items does or when the items joined by one
    space do; an absent attribute ([None]) matches a string only if the
    string is empty, never a regular expression, and is passed to a
    function as [None]. *)
Definition class_matches (f : class_filter) (cls : option (list str)) : bool :=
  match cls with
  | None => match f with ClassIs x => negb (nonempty x) | _ => false end
  | Some l => existsb (match_class_value f) l || match_class_value f (join (txt " ") l)
  end.

Definition has_class (f : class_filter) (n : node) : bool := class_matches f (class_of n).

(** [type="audio/mpeg"] and the like. *)
Definition has_attr (k v : str) (n : node) : bool :=
  match get_attr k n with Some v' => str_eqb v' v | None => false end.

Definition named (name : str) (n : node) : bool :=
  match n with Tag nm _ _ _ => str_eqb nm name | Text _ => false end.

(** [x.find_all(name, ...)] (recursive) *)
Definition find_all (x : located) (name : str) (p : node -> bool) : list located :=
  filter (fun d => named name (fst d) && p (fst d)) (descendants (snd x) (fst x)).

(** [x.find(name, ...)] *)
Definition find (x : located) (name : str) (p : node -> bool) : option located :=
  hd_error (find_all x name p).

(** [x.find_parent(name, ...)], given the ancestors of [x]. *)
Fixpoint find_parent (anc : list node) (name : str) (p : node -> bool) : option located :=
  match anc with
  | [] => None
  | a :: up => if named name a && p a then Some (a, up) else find_parent up name p
  end.

Definition text_of (o : option located) : str :=
  match o with Some (t, _) => get_text t | None => [] end.

(* ------------------------------------------------------------------ *)
(** ** Exceptions and the state of [extract_definitions] *)

Inductive exn : Type :=
| IndexError   (** [[][0]] *)
| ValueError   (** raised by [build_url] *)
| ReError.     (** [re.error] from compiling a pattern *)

(** [items] is the list [extract_definitions] appends to;
    [guideword_index] is the [nonlocal] counter of [next_guideword]. *)
Record xstate := { items : list str; guideword_index : nat }.

Definition M (A : Type) := xstate -> exn + (A * xstate).

Definition ret {A} (a : A) : M A := fun s => inr (a, s).
Definition bind {A B} (m : M A) (k : A -> M B) : M B :=
  fun s => match m s with inl e => inl e | inr (a, s') => k a s' end.
Definition raise {A} (e : exn) : M A := fun _ => inl e.

Notation "x <- m ;; k" := (bind m (fun x => k)) (at level 61, m at next level, right associativity).
Notation "m ;;; k" := (bind m (fun _ => k)) (at level 61, right associativity).

Definition append_item (x : str) : M unit :=
  fun s => inr (tt, {| items := items s ++ [x]; guideword_index := guideword_index s |}).

Fixpoint iter_M {A} (f : A -> M unit) (l : list A) : M unit :=
  match l with
  | [] => ret tt
  | x :: r => f x ;;; iter_M f r
  end.

(** [next_guideword], closing over the list [guidewords]. *)
Definition next_guideword (guidewords : list str) : M (option str) :=
  fun s =>
    let i := guideword_index s in
    if Nat.ltb i (List.length guidewords) then
      inr (nth_error guidewords i, {| items := items s; guideword_index := S i |})
    else inr (None, s).

(* ------------------------------------------------------------------ *)
(** ** extract_definitions *)

(** The separator ["‚Ä∫"] removed from the definition info (three code
    points in the script's text). *)
Definition def_info_sep : str := [8218; 196; 8747].

(** Python truthiness of an [Optional[str]]. *)
Definition truthy (o : option str) : bool :=
  match o with Some s => nonempty s | None => false end.

(** [" ".join(f"[{tag}]" for tag in tags if tag)] *)
Definition tag_text_of (tags : list (option str)) : str :=
  join (txt " ")
    (map (fun t => txt "[" ++ t ++ txt "]")
       (flat_map (fun o => match o with Some t => if nonempty t then [t] else [] | None => [] end) tags)).

(** [x.get_text(" ", strip=True)] of an optional element, kept when
    non-empty and then normalized: one part of [main_text_parts]. *)
Definition text_part (o : option located) : list str :=
  match o with
  | Some (d, _) => let t := get_text_strip (txt " ") d in if nonempty t then [normalize_text t] else []
  | None => []
  end.

(** The labels of a list of [span.lab] elements: [label.get_text(strip=True)]
    of each, the empty ones left out. *)
Definition label_texts (ls : list located) : list str :=
  filter nonempty (map (fun l => get_text_strip [] (fst l)) ls).

(** The definition string built from a "def-block" or "runon-body"
    element, given the resolved guideword (lines 296-348). *)
Definition definition_string (pos_gram : str) (runon_title : option str)
    (block : located) (phrase : option str) (guideword_for_block : option str) : str :=
  let def_info :=
    match find block (txt "span") (has_class (ClassIs (txt "def-info"))) with
    | Some (t, _) => normalize_text (remove_all def_info_sep (get_text_strip (txt " ") t))
    | None => []
    end in
  let own_labels := label_texts (find_all block (txt "span") (has_class (ClassIs (txt "lab")))) in
  let label_tags :=
    match own_labels with
    | [] =>
        match find_parent (snd block) (txt "div") (has_class (ClassIs (txt "pr"))) with
        | Some pb => label_texts (find_all pb (txt "span") (has_class (ClassIs (txt "lab"))))
        | None => []
        end
    | _ => own_labels
    end in
  let definition := find block (txt "div") (has_class (ClassIs (txt "def"))) in
  let translation := find block (txt "span") (has_class (ClassIs (txt "trans"))) in
  let examples := find_all block (txt "div") (has_class (ClassIs (txt "examp dexamp"))) in
  let tags := [Some pos_gram; runon_title; phrase; guideword_for_block; Some (strip def_info)]
              ++ map Some label_tags in
  let tag_text := tag_text_of tags in
  let main_text_parts := text_part definition ++ text_part translation in
  let example_lines :=
    flat_map (fun e => let t := get_text_strip (txt " ") (fst e) in
                       if nonempty t then [txt "- " ++ normalize_text t] else []) examples in
  let text_blocks :=
    (match main_text_parts with [] => [] | _ => [strip (join (txt " ") main_text_parts)] end)
    ++ example_lines in
  let definition_text := strip (join [10] text_blocks) in
  join (txt " ") (filter nonempty [tag_text; definition_text]).

Section ExtractDefinitions.

Variable pos_gram : str.
Variable runon_title : option str.
Variable guideword : option str.
Variable guideword_provider : option (M (option str)).

(** Lines 316-323: the guideword of a definition block with ancestors
    [anc]. *)
Definition resolve_guideword (anc : list node) : M (option str) :=
  let guideword_for_block :=
    match find_parent anc (txt "div") (has_class ClassDsense) with
    | Some pd =>
        match find pd (txt "span") (has_class (ClassIs (txt "guideword"))) with
        | Some (g, _) => Some (normalize_text (get_text_strip (txt " ") g))
        | None => guideword
        end
    | None => guideword
    end in
  if negb (truthy guideword_for_block) then
    match guideword_provider with
    | Some provider => provider
    | None => ret guideword_for_block
    end
  else ret guideword_for_block.

Definition emit_definition (block : located) (phrase : option str) : M unit :=
  g <- resolve_guideword (snd block) ;;
  append_item (definition_string pos_gram runon_title block phrase g).

(** [extract_sense(block, phrase)].  The recursion of the script goes
    from a "phrase-block" to the children of a descendant, so its depth is
    bounded by the depth of the tree; [fuel] counts it. *)
Fixpoint extract_sense (fuel : nat) (block : node) (anc : list node) (phrase : option str)
    : M unit :=
  match fuel with
  | O => ret tt
  | S fuel' =>
      match block with
      | Text _ => ret tt
      | Tag _ cls _ _ =>
          match class_first cls with
          | None => raise IndexError
          | Some block_type =>
              if str_eqb block_type (txt "def-block") then emit_definition (block, anc) phrase
              else if str_eqb block_type (txt "phrase-block") then
                let phrase_header := find (block, anc) (txt "span") (has_class (ClassIs (txt "phrase-head"))) in
                let phrase_body := find (block, anc) (txt "div") (has_class (ClassIs (txt "phrase-body pad-indent"))) in
                match phrase_body with
                | Some (pb, pb_anc) =>
                    iter_M (fun phrase_block =>
                              extract_sense fuel' phrase_block (pb :: pb_anc)
                                (match phrase_header with Some (h, _) => Some (get_text h) | None => None end))
                           (children pb)
                | None => ret tt
                end
              else if str_eqb block_type (txt "runon-body") then emit_definition (block, anc) phrase
              else ret tt
          end
      end
  end.

(** [extract_definitions(sense_body, ...)]: a fresh [items] list, the
    guideword counter threaded through. *)
Definition extract_definitions (sense_body : located) : M (list str) :=
  fun s =>
    match iter_M (fun b => extract_sense (node_depth (fst sense_body)) b (fst sense_body :: snd sense_body) None)
                 (children (fst sense_body))
                 {| items := []; guideword_index := guideword_index s |} with
    | inl e => inl e
    | inr (_, s') => inr (items s', {| items := items s; guideword_index := guideword_index s' |})
    end.

End ExtractDefinitions.

(* ------------------------------------------------------------------ *)
(** ** parse_cambridge *)

Definition CAMBRIDGE_BASE : str := txt "https://dictionary.cambridge.org/".

(** The result dictionary.  [pronunciation] is a Python dict: an
    association list in insertion order. *)
Record lookup := {
  pronunciation : list (str * str);
  image : str;
  thumb : str;
  definitions : list str
}.

(** [d[k] = v] on a dict: in place when [k] is a key, appended otherwise. *)
Definition dict_set (k v : str) (d : list (str * str)) : list (str * str) :=
  if existsb (fun kv => str_eqb (fst kv) k) d
  then map (fun kv => if str_eqb (fst kv) k then (k, v) else kv) d
  else d ++ [(k, v)].

Definition empty_pronunciation : list (str * str) :=
  [(txt "AmE", []); (txt "BrE", []); (txt "AmEmp3", []); (txt "BrEmp3", [])].

Definition empty_result : lookup :=
  {| pronunciation := empty_pronunciation; image := []; thumb := []; definitions := [] |}.

Definition set_pronunciation (p : list (str * str)) (r : lookup) : lookup :=
  {| pronunciation := p; image := image r; thumb := thumb r; definitions := definitions r |}.
Definition set_image (i : str) (r : lookup) : lookup :=
  {| pronunciation := pronunciation r; image := i; thumb := thumb r; definitions := definitions r |}.
Definition set_thumb (t : str) (r : lookup) : lookup :=
  {| pronunciation := pronunciation r; image := image r; thumb := t; definitions := definitions r |}.
Definition add_definitions (ds : list str) (r : lookup) : lookup :=
  {| pronunciation := pronunciation r; image := image r; thumb := thumb r; definitions := definitions r ++ ds |}.

(** Lines 396-405: one [span.dpron-i] of the header. *)
Definition read_pron (d : list (str * str)) (tag : located) : list (str * str) :=
  let reg := text_of (find tag (txt "span") (has_class (ClassIs (txt "region")))) in
  let pronunciation_key := if str_eqb reg (txt "us") then txt "AmE" else txt "BrE" in
  let d := dict_set pronunciation_key (text_of (find tag (txt "span") (has_class (ClassIs (txt "pron"))))) d in
  match find tag (txt "source") (has_attr (txt "type") (txt "audio/mpeg")) with
  | Some (source, _) =>
      match get_attr (txt "src") source with
      | Some src => if nonempty src then dict_set (pronunciation_key ++ txt "mp3") (CAMBRIDGE_BASE ++ src) d else d
      | None => d
      end
  | None => d
  end.

(** Lines 392-405: the pronunciations read from a [div.pos-header]. *)
Definition read_header (header : located) (d : list (str * str)) : list (str * str) :=
  fold_left read_pron (find_all header (txt "span") (has_class (ClassIs (txt "dpron-i")))) d.

(** Lines 438-443. *)
Definition record_image (sense : located) (r : lookup) : lookup :=
  match find sense (txt "img") (has_class (ClassIs (txt "lightboxLink"))) with
  | Some (im, _) =>
      let r := match get_attr (txt "data-image") im with
               | Some v => if nonempty v then set_image (CAMBRIDGE_BASE ++ v) r else r
               | None => r
               end in
      match get_attr (txt "src") im with
      | Some v => if nonempty v then set_thumb (CAMBRIDGE_BASE ++ v) r else r
      | None => r
      end
  | None => r
  end.

(** The local state of the entry loop: [result], [header_found] and the
    counter of [next_guideword]. *)
Record pstate := { result : lookup; header_found : bool; gw_index : nat }.

Definition with_result (r : lookup) (st : pstate) : pstate :=
  {| result := r; header_found := header_found st; gw_index := gw_index st |}.

(** One iteration of [for sense in senses] (lines 413-443); [pos_gram] is
    a variable of the entry loop that a runon sense overwrites. *)
Definition sense_step (guidewords : list str) (sense : located) (pos_gram : str) (st : pstate)
    : exn + (str * pstate) :=
  match class_first (class_of (fst sense)) with
  | None => inl IndexError
  | Some c0 =>
      let '(pos_gram, runon_title) :=
        if str_eqb c0 (txt "runon") then
          let runon_pos := find sense (txt "span") (has_class (ClassIs (txt "pos"))) in
          let runon_gram := find sense (txt "span") (has_class (ClassIs (txt "gram"))) in
          let pos_gram := match runon_pos with
                          | Some (p, _) => get_text p ++ text_of runon_gram
                          | None => pos_gram
                          end in
          (pos_gram, match find sense (txt "h3") (has_class (ClassIs (txt "runon-title"))) with
                     | Some (h, _) => Some (get_text h)
                     | None => None
                     end)
        else (pos_gram, None) in
      let sense_body := find sense (txt "div") (has_class ClassSenseBody) in
      let guideword :=
        match find_all sense (txt "span") (has_class (ClassIs (txt "guideword"))) with
        | [g] => Some (normalize_text (get_text_strip (txt " ") (fst g)))
        | _ => None
        end in
      let after_defs :=
        match sense_body with
        | Some sb =>
            match extract_definitions pos_gram runon_title guideword
                    (Some (next_guideword guidewords)) sb
                    {| items := []; guideword_index := gw_index st |} with
            | inl e => inl e
            | inr (defs, s') =>
                inr {| result := add_definitions defs (result st);
                       header_found := header_found st;
                       gw_index := guideword_index s' |}
            end
        | None => inr st
        end in
      match after_defs with
      | inl e => inl e
      | inr st' => inr (pos_gram, with_result (record_image sense (result st')) st')
      end
  end.

Fixpoint sense_loop (guidewords : list str) (senses : list located) (pos_gram : str) (st : pstate)
    : exn + pstate :=
  match senses with
  | [] => inr st
  | sense :: rest =>
      match sense_step guidewords sense pos_gram st with
      | inl e => inl e
      | inr (pos_gram', st') => sense_loop guidewords rest pos_gram' st'
      end
  end.

(** Lines 389-406: the pronunciation block of one entry. *)
Definition header_step (entry : located) (st : pstate) : pstate :=
  if header_found st then st
  else match find entry (txt "div") (has_class (ClassIs (txt "pos-header"))) with
       | Some header =>
           {| result := set_pronunciation (read_header header (pronunciation (result st))) (result st);
              header_found := true;
              gw_index := gw_index st |}
       | None => st
       end.

(** One iteration of [for entry in elements] (lines 389-443). *)
Definition entry_step (guidewords : list str) (entry : located) (st : pstate) : exn + pstate :=
  let st := header_step entry st in
  let senses := find_all entry (txt "div") (has_class (ClassIs (txt "pos-body"))) in
  let pos_gram := text_of (find entry (txt "div") (has_class (ClassIs (txt "posgram")))) in
  sense_loop guidewords senses pos_gram st.

Fixpoint entry_loop (guidewords : list str) (entries : list located) (st : pstate) : exn + pstate :=
  match entries with
  | [] => inr st
  | entry :: rest =>
      match entry_step guidewords entry st with
      | inl e => inl e
      | inr st' => entry_loop guidewords rest st'
      end
  end.

(** [parse_cambridge(html, is_english)] on the tree [soup] that
    [BeautifulSoup(html, "html.parser")] builds. *)
Definition parse_cambridge (soup : node) (is_english : bool) : exn + lookup :=
  let page_class := if is_english then txt "page" else txt "di-body" in
  match find (soup, []) (txt "div") (has_class (ClassIs page_class)) with
  | None => inr empty_result
  | Some element =>
      let elements := find_all element (txt "div") (has_class (ClassIs (txt "entry-body__el"))) in
      let guidewords :=
        map (fun g => normalize_text (get_text_strip (txt " ") (fst g)))
            (filter (fun g => nonempty (get_text_strip [] (fst g)))
               (find_all element (txt "span") (has_class (ClassIs (txt "guideword"))))) in
      match entry_loop guidewords elements {| result := empty_result; header_found := false; gw_index := 0 |} with
      | inl e => inl e
      | inr st => inr (result st)
      end
  end.

(* ------------------------------------------------------------------ *)
(** ** build_url *)

Definition LANG_URLS : list (str * str) :=
  [(txt "en", txt "https://dictionary.cambridge.org/dictionary/english/");
   (txt "en-zh-s", txt "https://dictionary.cambridge.org/us/dictionary/english-chinese-simplified/");
   (txt "en-zh-t", txt "https://dictionary.cambridge.org/us/dictionary/english-chinese-traditional/")].

Definition build_url (word lang : str) : exn + str :=
  match assoc lang LANG_URLS with
  | Some base => if nonempty base then inr (base ++ word) else inl ValueError
  | None => inl ValueError
  end.

(* ------------------------------------------------------------------ *)
(** ** render_html *)

(** Each line followed by a newline. *)
Definition unlines (l : list str) : str := flat_map (fun x => x ++ [10]) l.

(** The lines of the triple-quoted [DEFAULT_CSS]. *)
Definition DEFAULT_CSS_lines : list str := [
   txt "body {";
   txt "  font-family: `Segoe UI`, `PingFang SC`, `Hiragino Sans GB`, `Microsoft YaHei`, sans-serif;";
   txt "  margin: 32px;";
   txt "  color: #0f172a;";
   txt "  background: #f1f5f9;";
   txt "}";
   txt ".card {";
   txt "  background: #ffffff;";
   txt "  border-radius: 16px;";
   txt "  box-shadow: 0 12px 32px rgba(15, 23, 42, 0.12);";
   txt "  padding: 28px 32px;";
   txt "  max-width: 980px;";
   txt "  margin: 0 auto;";
   txt "  border: 1px solid #e2e8f0;";
   txt "}";
   txt ".header {";
   txt "  display: flex;";
   txt "  flex-wrap: wrap;";
   txt "  justify-content: space-between;";
   txt "  align-items: baseline;";
   txt "  gap: 12px;";
   txt "}";
   txt ".word {";
   txt "  font-size: 36px;";
   txt "  font-weight: 750;";
   txt "  color: #0b1220;";
   txt "  letter-spacing: 0.3px;";
   txt "}";
   txt ".meta {";
   txt "  font-size: 13px;";
   txt "  color: #64748b;";
   txt "}";
   txt ".meta a {";
   txt "  color: #2563eb;";
   txt "  text-decoration: none;";
   txt "}";
   txt ".meta a:hover {";
   txt "  text-decoration: underline;";
   txt "}";
   txt ".pron {";
   txt "  display: flex;";
   txt "  flex-wrap: wrap;";
   txt "  gap: 16px;";
   txt "  margin-top: 12px;";
   txt "  font-size: 15px;";
   txt "}";
   txt ".pron span {";
   txt "  background: #e0f2fe;";
   txt "  padding: 6px 12px;";
   txt "  border-radius: 999px;";
   txt "  color: #0f172a;";
   txt "  border: 1px solid #bae6fd;";
   txt "}";
   txt ".section {";
   txt "  margin-top: 24px;";
   txt "}";
   txt ".section-title {";
   txt "  font-size: 18px;";
   txt "  font-weight: 650;";
   txt "  margin-bottom: 12px;";
   txt "  color: #1e3a8a;";
   txt "  display: inline-flex;";
   txt "  align-items: center;";
   txt "  gap: 8px;";
   txt "}";
   txt ".definitions {";
   txt "  list-style: none;";
   txt "  padding: 0;";
   txt "  margin: 0;";
   txt "  display: grid;";
   txt "  gap: 12px;";
   txt "}";
   txt ".definition {";
   txt "  background: #f8fafc;";
   txt "  border-radius: 12px;";
   txt "  padding: 14px 16px;";
   txt "  line-height: 1.6;";
   txt "  border: 1px solid #e2e8f0;";
   txt "  display: grid;";
   txt "  gap: 6px;";
   txt "}";
   txt ".definition-header {";
   txt "  display: flex;";
   txt "  flex-wrap: wrap;";
   txt "  gap: 6px;";
   txt "}";
   txt ".tag {";
   txt "  background: #ede9fe;";
   txt "  color: #5b21b6;";
   txt "  font-size: 12px;";
   txt "  padding: 2px 8px;";
   txt "  border-radius: 999px;";
   txt "  border: 1px solid #ddd6fe;";
   txt "}";
   txt ".definition-text {";
   txt "  font-size: 15px;";
   txt "  color: #0f172a;";
   txt "  white-space: pre-line;";
   txt "}";
   txt ".definition-index {";
   txt "  font-weight: 700;";
   txt "  color: #1d4ed8;";
   txt "  font-size: 13px;";
   txt "  margin-right: 6px;";
   txt "}";
   txt ".media {";
   txt "  display: flex;";
   txt "  gap: 16px;";
   txt "  flex-wrap: wrap;";
   txt "}";
   txt ".media img {";
   txt "  max-width: 240px;";
   txt "  border-radius: 8px;";
   txt "  border: 1px solid #e2e8f0;";
   txt "  background: #fff;";
   txt "}";
   txt ".grid {";
   txt "  display: grid;";
   txt "  gap: 12px;";
   txt "}";
   txt ".footer {";
   txt "  margin-top: 16px;";
   txt "  font-size: 12px;";
   txt "  color: #94a3b8;";
   txt "}"].

(** The literal opens with a newline and ends with one. *)
Definition DEFAULT_CSS : str := [10] ++ unlines DEFAULT_CSS_lines.

Fixpoint drop_while (p : N -> bool) (s : str) : str :=
  match s with
  | c :: r => if p c then drop_while p r else s
  | [] => []
  end.

(** *** The pattern of [format_definition]

    Line 190 matches the raw string pattern whose text, character by
    character, is: caret, open, open, ?, :, then [\\ \[ \[ ^ \\ \] \]+]
    and [\\ \] \\ s], a star, close, plus, close, then dot-star in a
    group and a dollar.  Each doubled backslash is an escaped backslash, so
    the repeated group reads: a backslash, one character of the set made of
    '[', '^' and a backslash, one or more ']', a backslash, ']', a
    backslash, then any number of 's'.  The group is repeated at least once
    and followed by a group matching any text up to the end.  Each
    repetition is determined by where it starts (after the ']'s a
    backslash must follow, after the 's's a backslash must start the next
    repetition), so the greedy match never backtracks into the group; the
    final group then accepts the rest when it has no newline, or one
    newline as its last character (which the dollar skips). *)
Definition in_first_set (c : N) : bool := N.eqb c 91 || N.eqb c 94 || N.eqb c 92.

Definition match_unit (s : str) : option str :=
  match s with
  | b :: c :: rb :: r1 =>
      if N.eqb b 92 && in_first_set c && N.eqb rb 93 then
        match drop_while (N.eqb 93) r1 with
        | b2 :: rb2 :: b3 :: r2 =>
            if N.eqb b2 92 && N.eqb rb2 93 && N.eqb b3 92
            then Some (drop_while (N.eqb 115) r2) else None
        | _ => None
        end
      else None
  | _ => None
  end.

Fixpoint match_units (fuel : nat) (s : str) : str :=
  match fuel with
  | O => s
  | S fuel' => match match_unit s with Some r => match_units fuel' r | None => s end
  end.

Definition no_newline (s : str) : bool := forallb (fun c => negb (N.eqb c 10)) s.

(** The final group and the dollar on the rest: the text of group 2. *)
Definition dot_star_end (rest : str) : option str :=
  if no_newline rest then Some rest
  else match rev rest with
       | 10 :: rr => if no_newline rr then Some (rev rr) else None
       | _ => None
       end.

(** [re.match(...)] of line 190: the two groups when it matches. *)
Definition tag_match (definition : str) : option (str * str) :=
  match match_unit definition with
  | None => None
  | Some r =>
      let rest := match_units (List.length r) r in
      match dot_star_end rest with
      | Some g2 => Some (firstn (List.length definition - List.length rest) definition, g2)
      | None => None
      end
  end.

(** [f"{index:02d}"] *)
Definition fmt02 (index : nat) : str :=
  let d := txt (NilZero.string_of_uint (Nat.to_uint index)) in
  repeat 48 (2 - List.length d) ++ d.

(** [format_definition(index, definition)].  When the first pattern
    matches, line 194 runs [re.findall(r"\\[([^\\]]+)\\]", ...)], whose
    pattern does not compile: its '(' sits inside the set [[([^\\]], which
    leaves the ')' unbalanced, and [re] raises [re.error]. *)
Definition format_definition (index : nat) (definition : str) : exn + str :=
  let tags_html : str := [] in
  let main_text := strip definition in
  match tag_match definition with
  | Some _ => inl ReError
  | None =>
      let header_html :=
        if nonempty tags_html
        then txt "<div class=`definition-header`><span class=`definition-index`>" ++ fmt02 index
               ++ txt "</span>" ++ tags_html ++ txt "</div>"
        else txt "<div class=`definition-header`><span class=`definition-index`>" ++ fmt02 index
               ++ txt "</span></div>" in
      inr (txt "<li class=`definition`>" ++ header_html
           ++ txt "<div class=`definition-text`>"
           ++ (if nonempty main_text then main_text else txt "No definition text.")
           ++ txt "</div></li>")
  end.

Fixpoint format_all (i : nat) (defs : list str) : exn + list str :=
  match defs with
  | [] => inr []
  | d :: r =>
      match format_definition (S i) d with
      | inl e => inl e
      | inr x => match format_all (S i) r with inl e => inl e | inr xs => inr (x :: xs) end
      end
  end.

(** ["\n".join(media_parts) if media_parts else ...] (lines 215-220). *)
Definition media_html_of (image_url thumb_url : str) : str :=
  let media_parts :=
    (if nonempty thumb_url then [txt "<img src=`" ++ thumb_url ++ txt "` alt=`Thumbnail`>"] else [])
    ++ (if nonempty image_url && negb (str_eqb image_url thumb_url)
        then [txt "<img src=`" ++ image_url ++ txt "` alt=`Image`>"] else []) in
  match media_parts with
  | [] => txt "<div class=`meta`>No images available.</div>"
  | _ => join [10] media_parts
  end.

Definition get_or_empty (k : str) (d : list (str * str)) : str :=
  match assoc k d with Some v => v | None => [] end.

(** The two section titles, as the script's text has them. *)
Definition definitions_title : str := [63743; 252; 236; 242] ++ txt " Definitions".
Definition images_title : str := [63743; 252; 241; 186; 212; 8719; 232] ++ txt " Images".

(** [render_html(data, css_path)] for the dictionary [data] that [main]
    builds: the parsed record with ["word"] and ["url"] added. *)
Definition render_html (data : lookup) (word url : str) (css_path : option str) : exn + str :=
  let pronunciations := pronunciation data in
  let defs := definitions data in
  let css_tag :=
    match css_path with
    | Some p => if nonempty p then txt "<link rel=`stylesheet` href=`" ++ p ++ txt "`>"
                else txt "<style>" ++ DEFAULT_CSS ++ txt "</style>"
    | None => txt "<style>" ++ DEFAULT_CSS ++ txt "</style>"
    end in
  let def_list :=
    match defs with
    | [] => inr (txt "<li class=`definition`><div class=`definition-text`>No definitions found.</div></li>")
    | _ => match format_all 0 defs with inl e => inl e | inr xs => inr (join [10] xs) end
    end in
  let media_html := media_html_of (image data) (thumb data) in
  match def_list with
  | inl e => inl e
  | inr def_list =>
      inr (unlines [
        txt "<!DOCTYPE html>";
        txt "<html lang=`en`>";
        txt "<head>";
        txt "  <meta charset=`UTF-8`>";
        txt "  <meta name=`viewport` content=`width=device-width, initial-scale=1.0`>";
        txt "  <title>Cambridge: " ++ word ++ txt "</title>";
        txt "  " ++ css_tag;
        txt "</head>";
        txt "<body>";
        txt "  <div class=`card`>";
        txt "    <div class=`header`>";
        txt "      <div class=`word`>" ++ word ++ txt "</div>";
        txt "      <div class=`meta`><a href=`" ++ url ++ txt "`>" ++ url ++ txt "</a></div>";
        txt "    </div>";
        txt "    <div class=`pron`>";
        txt "      <span>AmE: " ++ get_or_empty (txt "AmE") pronunciations ++ txt "</span>";
        txt "      <span>BrE: " ++ get_or_empty (txt "BrE") pronunciations ++ txt "</span>";
        txt "    </div>";
        txt "    <div class=`section`>";
        txt "      <div class=`section-title`>" ++ definitions_title ++ txt "</div>";
        txt "      <ul class=`definitions`>";
        txt "        " ++ def_list;
        txt "      </ul>";
        txt "    </div>";
        txt "    <div class=`section`>";
        txt "      <div class=`section-title`>" ++ images_title ++ txt "</div>";
        txt "      <div class=`media`>";
        txt "        " ++ media_html;
        txt "      </div>";
        txt "    </div>";
        txt "    <div class=`footer`>Generated by standalone_cambridge.py</div>";
        txt "  </div>";
        txt "</body>";
        txt "</html>"])
  end.

(* ------------------------------------------------------------------ *)
(** ** main, from the URL on (lines 469-472) *)

(** The network calls [main] makes, and the parsed record, for a fetch
    that returns the tree [page_of url]. *)
Definition main_fetch_parse (page_of : str -> node) (word lang : str) : list str * (exn + lookup) :=
  match build_url word lang with
  | inl e => ([], inl e)
  | inr url => ([url], parse_cambridge (page_of url) (str_eqb lang (txt "en")))
  end.

(* ------------------------------------------------------------------ *)
(** ** Building concrete trees *)

(** [<name class="c1 c2 ...">kids</name>] *)
Definition el (name : string) (classes : list string) (kids : list node) : node :=
  Tag (txt name) (Some (map txt classes)) [] kids.

Definition el_attrs (name : string) (classes : list string) (attrs : list (string * string))
    (kids : list node) : node :=
  Tag (txt name) (Some (map txt classes)) (map (fun kv => (txt (fst kv), txt (snd kv))) attrs) kids.

Definition tx (s : string) : node := Text (txt s).


(** The [BeautifulSoup] object: the root tag named "[document]". *)
Definition document (kids : list node) : node := Tag (txt "[document]") None [] kids.

(* ------------------------------------------------------------------ *)
(** ** Example pages *)

Section ExamplePages.
Local Open Scope string_scope.

(** A page with no ["page"] container. *)
Definition page_without_container : node :=
  document [el "div" ["content"] [el "div" ["entry-body__el"] []]].

(** One entry, one part-of-speech header with text [p], one definition
    block whose text is "to move quickly". *)
Definition page_one_definition (p : str) : node :=
  document
    [el "div" ["page"]
       [el "div" ["entry-body__el"]
          [el "div" ["posgram"] [Text p];
           el "div" ["pos-body"]
             [el "div" ["sense-body"]
                [el "div" ["def-block"] [el "div" ["def"] [tx "to move quickly"]]]]]]].

(** [<div class='page'><div class='entry-body__el'><div class='pos-body'>
    <div class='sense-body'><div class=' '></div></div></div></div></div>]:
    an element of the sense body whose class attribute is present but blank,
    so that BeautifulSoup stores it as the empty list. *)
Definition page_blank_class : node :=
  document
    [el "div" ["page"]
       [el "div" ["entry-body__el"]
          [el "div" ["pos-body"]
             [el "div" ["sense-body"] [Tag (txt "div") (Some []) [] []]]]]].


(** A phrase block "P1" whose body holds a phrase block "P2" whose body
    holds a definition block. *)
Definition page_nested_phrases : node :=
  document
    [el "div" ["page"]
       [el "div" ["entry-body__el"]
          [el "div" ["pos-body"]
             [el "div" ["sense-body"]
                [el "div" ["phrase-block"]
                   [el "span" ["phrase-head"] [tx "P1"];
                    el "div" ["phrase-body"; "pad-indent"]
                      [el "div" ["phrase-block"]
                         [el "span" ["phrase-head"] [tx "P2"];
                          el "div" ["phrase-body"; "pad-indent"]
                            [el "div" ["def-block"] [el "div" ["def"] [tx "x"]]]]]]]]]]].

Definition entry_without_header : node := el "div" ["entry-body__el"] [].

Definition entry_with_header : node :=
  el "div" ["entry-body__el"]
    [el "div" ["pos-header"]
       [el "span" ["dpron-i"] [el "span" ["region"] [tx "uk"]; el "span" ["pron"] [tx "/x/"]]]].

(** Two entries, the pronunciation header only in the second. *)
Definition page_header_second : node :=
  document [el "div" ["page"] [entry_without_header; entry_with_header]].

(** The same page without its second entry. *)
Definition page_first_entry_only : node :=
  document [el "div" ["page"] [entry_without_header]].

(** Two senses with a lightbox image each; the second image has an empty
    [src]. *)
Definition page_two_images : node :=
  document
    [el "div" ["page"]
       [el "div" ["entry-body__el"]
          [el "div" ["pos-body"]
             [el_attrs "img" ["lightboxLink"] [("data-image", "old.jpg"); ("src", "old_t.jpg")] []];
           el "div" ["pos-body"]
             [el_attrs "img" ["lightboxLink"] [("data-image", "new.jpg"); ("src", EmptyString)] []]]]].

(** A record without images whose one definition starts with the text
    that the pattern of [format_definition] matches. *)
Definition record_backslash_definition : lookup :=
  {| pronunciation := empty_pronunciation; image := []; thumb := [];
     definitions := [txt "\[]\]\"] |}.

(** A sense with a lightbox image. *)
Definition sense_with_image : node :=
  el "div" ["pos-body"] [el_attrs "img" ["lightboxLink"] [("data-image", "a.jpg"); ("src", "b.jpg")] []].

(** A definition block on its own. *)
Definition def_block_x : node := el "div" ["def-block"] [el "div" ["def"] [tx "x"]].

Definition phrase_block_x : node :=
  el "div" ["phrase-block"]
    [el "span" ["phrase-head"] [tx "P1"];
     el "div" ["phrase-body"; "pad-indent"] [def_block_x]].

(** A record with one definition, as the parser writes them: tags in
    brackets, then the text. *)
Definition record_one_definition : lookup :=
  {| pronunciation := empty_pronunciation; image := []; thumb := [];
     definitions := [txt "[verb] to move quickly"] |}.

(** One entry whose header has a US pronunciation with an MP3 source (an
    element without a class attribute). *)
Definition page_with_audio : node :=
  document
    [el "div" ["page"]
       [el "div" ["entry-body__el"]
          [el "div" ["pos-header"]
             [el "span" ["dpron-i"]
                [el "span" ["region"] [tx "us"]; el "span" ["pron"] [tx "/x/"];
                 Tag (txt "source") None [(txt "type", txt "audio/mpeg"); (txt "src", txt "media/x.mp3")] []]]]]].

(** A sense body holding one definition block. *)
Definition sense_body_x : node := el "div" ["sense-body"] [def_block_x].

End ExamplePages.

(* ------------------------------------------------------------------ *)
(** ** Functions used to state properties *)

(** The entry whose pronunciation block the parser reads: the first
    entry that has a [div.pos-header]. *)
Fixpoint first_pos_header (entries : list located) : option located :=
  match entries with
  | [] => None
  | e :: rest =>
      match find e (txt "div") (has_class (ClassIs (txt "pos-header"))) with
      | Some h => Some h
      | None => first_pos_header rest
      end
  end.

(** The guideword a definition block with ancestors [anc] receives, in a
    sense whose own guideword is [sense_gw] (set when the sense has exactly
    one marker), when [i] entries of the global list [gws] are used up:
    the marker of the nearest ["dsense"] group if that group has one, else
    the sense guideword; when that is absent or empty, the next entry of
    [gws], if any.  Second component: the new count of used entries. *)
Definition guideword_choice (sense_gw : option str) (anc : list node) (gws : list str) (i : nat)
    : option str * nat :=
  let local :=
    match find_parent anc (txt "div") (has_class ClassDsense) with
    | Some pd =>
        match find pd (txt "span") (has_class (ClassIs (txt "guideword"))) with
        | Some (g, _) => Some (normalize_text (get_text_strip (txt " ") g))
        | None => None
        end
    | None => None
    end in
  let g := match local with Some g => Some g | None => sense_gw end in
  if truthy g then (g, i)
  else match nth_error gws i with
       | Some x => (Some x, S i)
       | None => (None, i)
       end.

(** The value an image field of the record takes after a sense: the base
    followed by the attribute [k] of the first lightbox image of the sense
    when that attribute is present and non-empty, [old] otherwise. *)
Definition lightbox_update (k : str) (sense : located) (old : str) : str :=
  match find sense (txt "img") (has_class (ClassIs (txt "lightboxLink"))) with
  | Some (im, _) =>
      match get_attr k im with
      | Some v => if nonempty v then CAMBRIDGE_BASE ++ v else old
      | None => old
      end
  | None => old
  end.

(** *** The shape of normalized text *)

(** [pairwise R t]: [R] holds of every two adjacent characters of [t]. *)
Fixpoint pairwise (R : N -> N -> bool) (t : str) : bool :=
  match t with
  | c :: ((d :: _) as r) => R c d && pairwise R r
  | _ => true
  end.

(** The text [normalize_text] returns: no whitespace at either end, every
    whitespace character a plain space, no two of them adjacent, none
    directly before one of , . ; : ! ? or a closing parenthesis, none
    directly after an opening parenthesis. *)
Definition normalized_shape (t : str) : Prop :=
  (forall c r, t = c :: r -> is_space c = false) /\
  (forall r c, t = r ++ [c] -> is_space c = false) /\
  (forall c, In c t -> is_space c = true -> c = 32) /\
  (forall a b c d, t = a ++ c :: d :: b -> is_space c = true ->
     is_space d = false /\ is_punct d = false /\ is_close_paren d = false) /\
  (forall a b d, t = a ++ 40 :: d :: b -> is_space d = false).

(** [t'] is [t] with some whitespace characters deleted. *)
Inductive del_sp : str -> str -> Prop :=
| del_sp_nil : del_sp [] []
| del_sp_keep (c : N) (t t' : str) : del_sp t t' -> del_sp (c :: t) (c :: t')
| del_sp_drop (c : N) (t t' : str) : is_space c = true -> del_sp t t' -> del_sp (c :: t) t'.

(** Deleting each whitespace character whose successor satisfies [P]:
    what [drop_ws_before P []] does on a text whose whitespace characters
    stand alone. *)
Fixpoint rm_before (P : N -> bool) (t : str) : str :=
  match t with
  | c :: ((d :: _) as r) => if is_space c && P d then rm_before P r else c :: rm_before P r
  | _ => t
  end.

(** Whether the last character of [t] is whitespace. *)
Definition last_space (t : str) : bool :=
  match rev t with c :: _ => is_space c | [] => false end.

(** Every whitespace character of [t] is followed by a character that is
    not whitespace. *)
Definition space_followed (t : str) : bool :=
  pairwise (fun c d => negb (is_space c && is_space d)) t && negb (last_space t).

(** Whether the first character of [t] is whitespace. *)
Definition first_space (t : str) : bool :=
  match t with c :: _ => is_space c | [] => false end.

(** Two adjacent characters that are not both whitespace. *)
Definition no_ws_pair (c d : N) : bool := negb (is_space c && is_space d).

(** A character that is either not whitespace or the plain space. *)
Definition ws_is_space (c : N) : bool := negb (is_space c) || N.eqb c 32.

(** *** Rendering *)

(** The list item [format_definition] builds when its pattern does not
    match: the plain header with the index, and the stripped definition. *)
Definition formatted_item (index : nat) (definition : str) : str :=
  txt "<li class=`definition`>"
  ++ txt "<div class=`definition-header`><span class=`definition-index`>" ++ fmt02 index
  ++ txt "</span></div>"
  ++ txt "<div class=`definition-text`>"
  ++ (if nonempty (strip definition) then strip definition else txt "No definition text.")
  ++ txt "</div></li>".

(** *** Induction on trees *)

(** Induction on trees, with the hypothesis on all the children of an
    element. *)
Fixpoint node_ind_list (P : node -> Prop) (HT : forall s, P (Text s))
    (HG : forall nm c a kids, Forall P kids -> P (Tag nm c a kids)) (n : node) : P n :=
  match n with
  | Text s => HT s
  | Tag nm c a kids =>
      HG nm c a kids
        ((fix go (l : list node) : Forall P l :=
            match l with
            | [] => Forall_nil P
            | k :: r => Forall_cons k (node_ind_list P HT HG k) (go r)
            end) kids)
  end.

(** A URL field of the record: empty, or the base followed by a path. *)
Definition base_url_or_empty (v : str) : Prop :=
  v = [] \/ exists u, v = CAMBRIDGE_BASE ++ u.

(** The values of the audio keys "AmEmp3" and "BrEmp3" of a
    pronunciation dictionary are URL fields. *)
Definition audio_urls_ok (d : list (str * str)) : Prop :=
  forall k v, In (k, v) d -> (k = txt "AmEmp3" \/ k = txt "BrEmp3") -> base_url_or_empty v.

(** From [s] to [s'] the guideword counter moves forward, and not past
    [len] unless it already was. *)
Definition gw_bound (len : nat) (s s' : xstate) : Prop :=
  (guideword_index s <= guideword_index s' <= Nat.max (guideword_index s) len)%nat.

(** *** The parts of a definition string *)

(** The tags of a definition string (lines 296-332): the part of speech,
    the runon title, the phrase header, the guideword, the definition
    info and the labels, in this order. *)
Definition definition_tags (pos_gram : str) (runon_title : option str)
    (block : located) (phrase : option str) (guideword_for_block : option str) : list (option str) :=
  let def_info :=
    match find block (txt "span") (has_class (ClassIs (txt "def-info"))) with
    | Some (t, _) => normalize_text (remove_all def_info_sep (get_text_strip (txt " ") t))
    | None => []
    end in
  let own_labels := label_texts (find_all block (txt "span") (has_class (ClassIs (txt "lab")))) in
  let label_tags :=
    match own_labels with
    | [] =>
        match find_parent (snd block) (txt "div") (has_class (ClassIs (txt "pr"))) with
        | Some pb => label_texts (find_all pb (txt "span") (has_class (ClassIs (txt "lab"))))
        | None => []
        end
    | _ => own_labels
    end in
  [Some pos_gram; runon_title; phrase; guideword_for_block; Some (strip def_info)] ++ map Some label_tags.

(** The definition text of a block (lines 312-348): the definition and
    the translation, then the example lines, stripped. *)
Definition definition_body_text (block : located) : str :=
  let definition := find block (txt "div") (has_class (ClassIs (txt "def"))) in
  let translation := find block (txt "span") (has_class (ClassIs (txt "trans"))) in
  let examples := find_all block (txt "div") (has_class (ClassIs (txt "examp dexamp"))) in
  let main_text_parts := text_part definition ++ text_part translation in
  let example_lines :=
    flat_map (fun e => let t := get_text_strip (txt " ") (fst e) in
                       if nonempty t then [txt "- " ++ normalize_text t] else []) examples in
  let text_blocks :=
    (match main_text_parts with [] => [] | _ => [strip (join (txt " ") main_text_parts)] end)
    ++ example_lines in
  strip (join [10] text_blocks).

(** The bracketed tags [f"[{tag}]"] of the non-empty tags, in order. *)
Definition bracketed_tags (tags : list (option str)) : list str :=
  map (fun t => txt "[" ++ t ++ txt "]")
    (flat_map (fun o => match o with Some t => if nonempty t then [t] else [] | None => [] end) tags).

(** Lines 423-426: the guideword of a sense, set only when the sense has
    exactly one guideword marker. *)
Definition sense_guideword (sense : located) : option str :=
  match find_all sense (txt "span") (has_class (ClassIs (txt "guideword"))) with
  | [g] => Some (normalize_text (get_text_strip (txt " ") (fst g)))
  | _ => None
  end.

(** Lines 373-377: the page-wide sequence of the non-empty guideword
    markers of the container [element], normalized. *)
Definition page_guideword_list (element : located) : list str :=
  map (fun g => normalize_text (get_text_strip (txt " ") (fst g)))
      (filter (fun g => nonempty (get_text_strip [] (fst g)))
         (find_all element (txt "span") (has_class (ClassIs (txt "guideword"))))).

(** Lines 285 and 289: the header text a phrase block hands down. *)
Definition phrase_header_text (p : located) : option str :=
  match find p (txt "span") (has_class (ClassIs (txt "phrase-head"))) with
  | Some (h, _) => Some (get_text h)
  | None => None
  end.

(** [d] is the string of a definition block or runon body [blk] inside
    the sense [sense], built with the guideword [guideword_choice] picks
    from the sense's guideword, the ancestors of [blk] and the sequence
    [gws] at some position [i]. *)
Definition emitted_from (gws : list str) (sense : located) (d : str) : Prop :=
  exists pos_gram runon_title blk phrase i,
    In blk (descendants (snd sense) (fst sense)) /\
    (class_first (class_of (fst blk)) = Some (txt "def-block") \/
     class_first (class_of (fst blk)) = Some (txt "runon-body")) /\
    d = definition_string pos_gram runon_title blk phrase
          (fst (guideword_choice (sense_guideword sense) (snd blk) gws i)).

(* ------------------------------------------------------------------ *)
(** * Proofs *)

(** ** Basic facts on text *)

Lemma str_eqb_eq (a b : str) : str_eqb a b = true <-> a = b.
Proof.
  revert b; induction a as [|x a IH]; intros [|y b]; simpl; try easy.
  rewrite andb_true_iff, N.eqb_eq, IH. split; [intros [-> ->]; reflexivity|].
  intros H; injection H; auto.
Qed.

Lemma str_eqb_refl (a : str) : str_eqb a a = true.
Proof. apply str_eqb_eq; reflexivity. Qed.

Lemma assoc_app_None (k : str) (l : list (str * str)) :
  assoc k l = None -> ~ In k (map fst l).
Proof.
  induction l as [|[k' v] l IH]; simpl; [easy|].
  destruct (str_eqb k k') eqn:E; [discriminate|].
  intros H [Heq|Hin]; [subst; rewrite str_eqb_refl in E; discriminate|tauto].
Qed.

(** ** The keys of the pronunciation dictionary *)

Definition pron_keys : list str := [txt "AmE"; txt "BrE"; txt "AmEmp3"; txt "BrEmp3"].

Lemma dict_set_keys (k v : str) (d : list (str * str)) :
  In k (map fst d) -> map fst (dict_set k v d) = map fst d.
Proof.
  intros Hin. unfold dict_set.
  assert (Hex : existsb (fun kv => str_eqb (fst kv) k) d = true).
  { apply existsb_exists. apply in_map_iff in Hin as [[k' v'] [Hk Hin]].
    exists (k', v'). simpl in *; subst. split; [exact Hin|apply str_eqb_refl]. }
  rewrite Hex, map_map. apply map_ext. intros [k' v'].
  simpl. destruct (str_eqb k' k) eqn:E; [apply str_eqb_eq in E; auto|reflexivity].
Qed.

Lemma read_pron_keys (d : list (str * str)) (tag : located) :
  map fst d = pron_keys -> map fst (read_pron d tag) = pron_keys.
Proof.
  intros Hd. unfold read_pron.
  set (key := if str_eqb _ (txt "us") then txt "AmE" else txt "BrE").
  assert (Hk : In key pron_keys /\ In (key ++ txt "mp3") pron_keys).
  { subst key. destruct (str_eqb _ _); simpl; auto 10. }
  destruct Hk as [Hk1 Hk2].
  assert (H1 : map fst (dict_set key (text_of (find tag (txt "span") (has_class (ClassIs (txt "pron"))))) d)
               = pron_keys).
  { rewrite dict_set_keys; [exact Hd|rewrite Hd; exact Hk1]. }
  destruct (find tag (txt "source") _) as [[source ?]|]; [|exact H1].
  destruct (get_attr (txt "src") source) as [src|]; [|exact H1].
  destruct (nonempty src); [|exact H1].
  rewrite dict_set_keys; [exact H1|rewrite H1; exact Hk2].
Qed.

Lemma read_header_keys (header : located) (d : list (str * str)) :
  map fst d = pron_keys -> map fst (read_header header d) = pron_keys.
Proof.
  unfold read_header. generalize (find_all header (txt "span") (has_class (ClassIs (txt "dpron-i")))).
  intros l; revert d; induction l as [|t l IH]; intros d Hd; simpl; [exact Hd|].
  apply IH, read_pron_keys, Hd.
Qed.

Lemma record_image_pronunciation (sense : located) (r : lookup) :
  pronunciation (record_image sense r) = pronunciation r.
Proof.
  unfold record_image.
  destruct (find sense _ _) as [[im ?]|]; [|reflexivity].
  destruct (get_attr (txt "data-image") im) as [v|]; [destruct (nonempty v)|];
  (destruct (get_attr (txt "src") im) as [w|]; [destruct (nonempty w)|]); reflexivity.
Qed.

(** A sense leaves the pronunciations and [header_found] as they were. *)
Lemma sense_step_keeps (gws : list str) (sense : located) (pg pg' : str) (st st' : pstate) :
  sense_step gws sense pg st = inr (pg', st') ->
  pronunciation (result st') = pronunciation (result st) /\ header_found st' = header_found st.
Proof.
  unfold sense_step.
  destruct (class_first (class_of (fst sense))) as [c0|]; [|discriminate].
  destruct (if str_eqb c0 (txt "runon") then _ else _) as [pg1 rt].
  destruct (find sense (txt "div") (has_class ClassSenseBody)) as [sb|].
  - destruct (extract_definitions _ _ _ _ _ _) as [e|[defs s']]; [discriminate|].
    intros H; injection H as <- <-. simpl. rewrite record_image_pronunciation. auto.
  - intros H; injection H as <- <-. simpl. rewrite record_image_pronunciation. auto.
Qed.

Lemma sense_loop_keeps (gws : list str) (senses : list located) (pg : str) (st st' : pstate) :
  sense_loop gws senses pg st = inr st' ->
  pronunciation (result st') = pronunciation (result st) /\ header_found st' = header_found st.
Proof.
  revert pg st; induction senses as [|s senses IH]; intros pg st; simpl.
  - intros H; injection H as <-; auto.
  - destruct (sense_step gws s pg st) as [e|[pg1 st1]] eqn:E; [discriminate|].
    intros H. apply sense_step_keeps in E as [E1 E2]. apply IH in H as [H1 H2].
    rewrite H1, H2; auto.
Qed.

Lemma entry_loop_keys (gws : list str) (es : list located) (st st' : pstate) :
  map fst (pronunciation (result st)) = pron_keys ->
  entry_loop gws es st = inr st' ->
  map fst (pronunciation (result st')) = pron_keys.
Proof.
  revert st; induction es as [|e es IH]; intros st Hst; simpl.
  - intros H; injection H as <-; exact Hst.
  - unfold entry_step. destruct (sense_loop _ _ _ _) as [x|st1] eqn:E; [discriminate|].
    intros H. apply (IH st1); [|exact H].
    apply sense_loop_keeps in E as [E _]. rewrite E.
    unfold header_step. destruct (header_found st); [exact Hst|].
    destruct (find e _ _) as [h|]; [|exact Hst].
    simpl. apply read_header_keys, Hst.
Qed.

(** ** C10 *)

(** C10: whatever the page and the language flag, the pronunciation
    dictionary of the record [parse_cambridge] returns has exactly the keys
    "AmE", "BrE", "AmEmp3" and "BrEmp3", in this order, each bound to a
    string: the parser only assigns to these keys. *)
Theorem parse_cambridge_pronunciation_keys (soup : node) (is_english : bool) (r : lookup) :
  parse_cambridge soup is_english = inr r ->
  map fst (pronunciation r) = [txt "AmE"; txt "BrE"; txt "AmEmp3"; txt "BrEmp3"].
Proof.
  unfold parse_cambridge.
  destruct (find (soup, []) _ _) as [element|].
  - destruct (entry_loop _ _ _) as [e|st] eqn:E; [discriminate|].
    intros H; injection H as <-.
    apply (entry_loop_keys _ _ _ st (eq_refl : map fst (pronunciation (result {| result := empty_result; header_found := false; gw_index := 0 |})) = pron_keys) E).
  - intros H; injection H as <-. reflexivity.
Qed.

Lemma parse_cambridge_pronunciation_keys_witness :
  let r := match parse_cambridge page_header_second true with inr r => r | inl _ => empty_result end in
  parse_cambridge page_header_second true = inr r /\
  map fst (pronunciation r) = [txt "AmE"; txt "BrE"; txt "AmEmp3"; txt "BrEmp3"].
Proof.
  intros r.
  assert (H : parse_cambridge page_header_second true = inr r) by (vm_compute; reflexivity).
  split; [exact H|exact (parse_cambridge_pronunciation_keys page_header_second true r H)].
Defined.

(** ** C5 *)

(** C5: when the tree has no [div] whose class matches the expected
    container ("page" for English, "di-body" otherwise), [parse_cambridge]
    returns a record whose four pronunciation strings are empty, whose
    image and thumb are empty and whose definitions are empty. *)
Theorem parse_cambridge_no_container (soup : node) (is_english : bool) :
  find (soup, []) (txt "div")
       (has_class (ClassIs (if is_english then txt "page" else txt "di-body"))) = None ->
  exists r, parse_cambridge soup is_english = inr r /\
            pronunciation r = [(txt "AmE", []); (txt "BrE", []); (txt "AmEmp3", []); (txt "BrEmp3", [])] /\
            image r = [] /\ thumb r = [] /\ definitions r = [].
Proof.
  intros H. exists empty_result. unfold parse_cambridge.
  rewrite H. repeat split.
Qed.

Lemma parse_cambridge_no_container_witness :
  find (page_without_container, []) (txt "div") (has_class (ClassIs (txt "page"))) = None /\
  exists r, parse_cambridge page_without_container true = inr r /\
            pronunciation r = [(txt "AmE", []); (txt "BrE", []); (txt "AmEmp3", []); (txt "BrEmp3", [])] /\
            image r = [] /\ thumb r = [] /\ definitions r = [].
Proof.
  assert (H : find (page_without_container, []) (txt "div") (has_class (ClassIs (txt "page"))) = None)
    by (vm_compute; reflexivity).
  split; [exact H|exact (parse_cambridge_no_container page_without_container true H)].
Defined.

(** ** C6 *)

(** C6: for a language key that [LANG_URLS] does not contain, [build_url]
    raises [ValueError] and [main] makes no network call; for a key it
    contains, the URL is the base path of the key followed by the word; in
    particular [build_url("test", "en")] is the English base path followed
    by "test". *)
Theorem build_url_spec (page_of : str -> node) (word lang : str) :
  (assoc lang LANG_URLS = None ->
   build_url word lang = inl ValueError /\ main_fetch_parse page_of word lang = ([], inl ValueError)) /\
  (forall base, assoc lang LANG_URLS = Some base -> build_url word lang = inr (base ++ word)) /\
  build_url (txt "test") (txt "en")
  = inr (txt "https://dictionary.cambridge.org/dictionary/english/" ++ txt "test").
Proof.
  split; [|split].
  - intros H. unfold main_fetch_parse, build_url. rewrite H. auto.
  - intros base H. unfold build_url. rewrite H.
    assert (Hb : base <> []).
    { unfold LANG_URLS in H. simpl in H.
      repeat (destruct (str_eqb lang _); [injection H as <-; discriminate|]). discriminate. }
    destruct base as [|c b]; [contradiction|reflexivity].
  - reflexivity.
Qed.

Lemma build_url_spec_witness :
  assoc (txt "fr") LANG_URLS = None /\
  build_url (txt "test") (txt "fr") = inl ValueError /\
  main_fetch_parse (fun _ => document []) (txt "test") (txt "fr") = ([], inl ValueError) /\
  build_url (txt "test") (txt "en-zh-s")
  = inr (txt "https://dictionary.cambridge.org/us/dictionary/english-chinese-simplified/" ++ txt "test").
Proof.
  assert (H : assoc (txt "fr") LANG_URLS = None) by reflexivity.
  destruct (build_url_spec (fun _ => document []) (txt "test") (txt "fr")) as [H1 _].
  destruct (build_url_spec (fun _ => document []) (txt "test") (txt "en-zh-s")) as [_ [H2 _]].
  split; [exact H|split; [exact (proj1 (H1 H))|split; [exact (proj2 (H1 H))|]]].
  apply H2. reflexivity.
Defined.

(** ** C1 *)

(** C1: the parser is meant never to raise on a structure it does not
    expect.  On a page whose sense body holds an element with a blank class
    attribute, [block.get('class', [''])[0]] in [extract_sense] indexes an
    empty list and [parse_cambridge] raises [IndexError]. *)
Theorem parse_cambridge_blank_class_raises :
  parse_cambridge page_blank_class true = inl IndexError.
Proof. vm_compute. reflexivity. Qed.

(** ** C9 *)

(** C9: a record without images whose one definition is the text
    backslash, '[', ']', backslash, ']', backslash: the pattern of line 190
    matches it, line 194 then compiles a pattern with an unbalanced
    parenthesis, and [render_html] raises [re.error] instead of producing a
    document with the "No images available." marker. *)
Theorem render_html_backslash_definition_raises :
  image record_backslash_definition = [] /\ thumb record_backslash_definition = [] /\
  render_html record_backslash_definition (txt "w") (txt "u") None = inl ReError.
Proof. vm_compute. repeat split. Qed.

(** [x] occurs in [s]. *)
Definition occurs_in (x s : str) : Prop := exists a b, s = a ++ x ++ b.

Lemma occurs_in_unlines (x : str) (l : list str) : In x l -> occurs_in x (unlines l).
Proof.
  induction l as [|y l IH]; simpl; [easy|].
  intros [<-|Hin].
  - exists [], ([10] ++ unlines l). simpl. rewrite <- app_assoc. reflexivity.
  - destruct (IH Hin) as (a & b & ->). exists ((y ++ [10]) ++ a), b.
    rewrite <- !app_assoc. reflexivity.
Qed.

Lemma occurs_in_trans (x y s : str) : occurs_in x y -> occurs_in y s -> occurs_in x s.
Proof.
  intros (a & b & ->) (c & d & ->). exists (c ++ a), (b ++ d).
  rewrite <- !app_assoc. reflexivity.
Qed.

(** When [render_html] does return a document for a record without
    images, the document carries the marker. *)
Lemma render_html_no_images_marker (data : lookup) (word url : str) (css_path : option str) (doc : str) :
  image data = [] -> thumb data = [] ->
  render_html data word url css_path = inr doc ->
  occurs_in (txt "No images available.") doc.
Proof.
  intros Hi Ht. unfold render_html.
  replace (media_html_of (image data) (thumb data))
    with (txt "<div class=`meta`>No images available.</div>")
    by (rewrite Hi, Ht; reflexivity).
  destruct (match definitions data with [] => _ | _ => _ end) as [e|def_list]; [discriminate|].
  intros H.
  apply (occurs_in_trans _ (txt "        " ++ txt "<div class=`meta`>No images available.</div>")).
  - exists (txt "        <div class=`meta`>"), (txt "</div>"). reflexivity.
  - match type of H with inr (unlines ?l) = inr _ =>
      assert (Hl : occurs_in (txt "        " ++ txt "<div class=`meta`>No images available.</div>") (unlines l))
        by (apply occurs_in_unlines; cbv [In]; tauto)
    end.
    injection H as Hd. rewrite <- Hd. exact Hl.
Qed.

(** ** A page with one definition *)

(** On a page with one entry, one part-of-speech header with text [p]
    and one definition block whose text is "to move quickly", the
    definitions are the one string made of the bracketed tag [[p]] followed
    by "to move quickly". *)
Lemma parse_one_definition_result (p : str) :
  nonempty p = true ->
  parse_cambridge (page_one_definition p) true
  = inr {| pronunciation := empty_pronunciation; image := []; thumb := [];
           definitions := [txt "[" ++ p ++ txt "] to move quickly"] |}.
Proof.
  destruct p as [|c p]; [discriminate|]. intros _.
  vm_compute. fold (@app N). rewrite app_nil_r, <- app_assoc. reflexivity.
Qed.

(** ** The guideword of a definition block *)

Lemma next_guideword_eq (gws : list str) (s : xstate) :
  next_guideword gws s
  = inr (match nth_error gws (guideword_index s) with
         | Some x => (Some x, {| items := items s; guideword_index := S (guideword_index s) |})
         | None => (None, s)
         end).
Proof.
  unfold next_guideword. destruct (Nat.ltb_spec (guideword_index s) (List.length gws)) as [Hl|Hl].
  - destruct (nth_error gws (guideword_index s)) eqn:E; [reflexivity|].
    apply nth_error_None in E. lia.
  - apply nth_error_None in Hl. rewrite Hl. reflexivity.
Qed.

Lemma resolve_guideword_choice (sense_gw : option str) (gws : list str) (anc : list node) (s : xstate) :
  resolve_guideword sense_gw (Some (next_guideword gws)) anc s
  = inr (fst (guideword_choice sense_gw anc gws (guideword_index s)),
         {| items := items s; guideword_index := snd (guideword_choice sense_gw anc gws (guideword_index s)) |}).
Proof.
  unfold resolve_guideword, guideword_choice.
  set (g1 := match find_parent anc _ _ with Some pd => _ | None => sense_gw end).
  set (g2 := match match find_parent anc _ _ with Some pd => _ | None => None end with
             | Some g => Some g | None => sense_gw end).
  assert (Hg : g1 = g2).
  { subst g1 g2. destruct (find_parent anc _ _) as [pd|]; [|reflexivity].
    destruct (find pd _ _) as [[g ?]|]; reflexivity. }
  rewrite Hg. clear g1 Hg.
  destruct (truthy g2); simpl.
  - destruct s; reflexivity.
  - rewrite next_guideword_eq. destruct (nth_error gws (guideword_index s)); [reflexivity|].
    destruct s; reflexivity.
Qed.

(** Resolving a guideword never touches the items. *)
Lemma resolve_guideword_items (sense_gw : option str) (gws : list str) (anc : list node)
    (s s' : xstate) (g : option str) :
  resolve_guideword sense_gw (Some (next_guideword gws)) anc s = inr (g, s') -> items s' = items s.
Proof.
  rewrite resolve_guideword_choice. intros H; injection H as _ <-. reflexivity.
Qed.


(** ** C3 *)



(** ** Phrase headers *)

(** One step of [extract_sense] on an element. *)
Lemma extract_sense_S_Tag (pos_gram : str) (runon_title guideword : option str)
    (prov : option (M (option str))) (fuel : nat) (name : str) (cls : option (list str))
    (attrs : list (str * str)) (kids : list node) (anc : list node) (phrase : option str) :
  extract_sense pos_gram runon_title guideword prov (S fuel) (Tag name cls attrs kids) anc phrase
  = match class_first cls with
    | None => raise IndexError
    | Some block_type =>
        if str_eqb block_type (txt "def-block")
        then emit_definition pos_gram runon_title guideword prov (Tag name cls attrs kids, anc) phrase
        else if str_eqb block_type (txt "phrase-block") then
          match find (Tag name cls attrs kids, anc) (txt "div")
                     (has_class (ClassIs (txt "phrase-body pad-indent"))) with
          | Some (pb, pb_anc) =>
              iter_M (fun phrase_block =>
                        extract_sense pos_gram runon_title guideword prov fuel phrase_block (pb :: pb_anc)
                          (match find (Tag name cls attrs kids, anc) (txt "span")
                                      (has_class (ClassIs (txt "phrase-head"))) with
                           | Some (h, _) => Some (get_text h)
                           | None => None
                           end))
                     (children pb)
          | None => ret tt
          end
        else if str_eqb block_type (txt "runon-body")
        then emit_definition pos_gram runon_title guideword prov (Tag name cls attrs kids, anc) phrase
        else ret tt
    end.
Proof. reflexivity. Qed.

Lemma occurs_in_refl (x : str) : occurs_in x x.
Proof. exists [], []. rewrite app_nil_r. reflexivity. Qed.

Lemma occurs_in_join (sep x : str) (l : list str) : In x l -> occurs_in x (join sep l).
Proof.
  induction l as [|y l IH]; [easy|].
  intros [<-|Hin].
  - destruct l as [|z l]; [apply occurs_in_refl|].
    exists [], (sep ++ join sep (z :: l)). reflexivity.
  - destruct l as [|z l]; [easy|].
    destruct (IH Hin) as (a & b & Hab).
    exists (y ++ sep ++ a), b. change (join sep (y :: z :: l)) with (y ++ sep ++ join sep (z :: l)).
    rewrite Hab, <- !app_assoc. reflexivity.
Qed.

(** A non-empty tag among the tags appears bracketed in the tag block,
    and the tag block in the definition string. *)
Lemma bracketed_tag_in_string (tags : list (option str)) (h definition_text : str) :
  In (Some h) tags -> nonempty h = true ->
  occurs_in (txt "[" ++ h ++ txt "]")
    (join (txt " ") (filter nonempty [tag_text_of tags; definition_text])).
Proof.
  intros Hin Hh.
  assert (Ht : occurs_in (txt "[" ++ h ++ txt "]") (tag_text_of tags)).
  { apply occurs_in_join. apply (in_map (fun t => txt "[" ++ t ++ txt "]")).
    apply in_flat_map. exists (Some h). rewrite Hh. simpl. auto. }
  assert (Hne : nonempty (tag_text_of tags) = true).
  { destruct Ht as (a & b & ->). destruct a; reflexivity. }
  apply (occurs_in_trans _ _ _ Ht), occurs_in_join.
  simpl. rewrite Hne. simpl. auto.
Qed.

Lemma definition_string_phrase (pos_gram : str) (runon_title : option str) (block : located)
    (h : str) (g : option str) :
  nonempty h = true ->
  occurs_in (txt "[" ++ h ++ txt "]") (definition_string pos_gram runon_title block (Some h) g).
Proof.
  intros Hh. unfold definition_string. cbv zeta.
  apply bracketed_tag_in_string; [|exact Hh].
  apply in_or_app. left. simpl. auto.
Qed.

Lemma emit_definition_items (pos_gram : str) (runon_title sense_gw : option str) (gws : list str)
    (block : located) (phrase : option str) (s s' : xstate) :
  emit_definition pos_gram runon_title sense_gw (Some (next_guideword gws)) block phrase s = inr (tt, s') ->
  exists g, items s' = items s ++ [definition_string pos_gram runon_title block phrase g].
Proof.
  unfold emit_definition, bind. rewrite resolve_guideword_choice.
  unfold append_item. intros H. injection H as <-. eexists. reflexivity.
Qed.

(** ** C4 *)

Lemma is_prefix_app (x b : str) : is_prefix x (x ++ b) = true.
Proof. induction x as [|c x IH]; [reflexivity|]. simpl. rewrite N.eqb_refl, IH. reflexivity. Qed.

Lemma occurs_in_is_infix (x s : str) : occurs_in x s -> is_infix x s = true.
Proof.
  intros (a & b & ->). induction a as [|c a IH].
  - destruct (x ++ b) eqn:E; simpl; rewrite <- E, is_prefix_app; reflexivity.
  - simpl. rewrite IH. apply orb_true_r.
Qed.

(** C4 as stated fails for nested phrase blocks: in [page_nested_phrases]
    the definition block sits beneath the phrase block headed "P1", inside
    the one headed "P2", and its definition string carries "[P2]" only. *)
Lemma phrase_header_nested_counterexample :
  parse_cambridge page_nested_phrases true
  = inr {| pronunciation := empty_pronunciation; image := []; thumb := [];
           definitions := [txt "[P2] x"] |} /\
  ~ occurs_in (txt "[P1]") (txt "[P2] x").
Proof.
  split; [vm_compute; reflexivity|].
  intros H. apply occurs_in_is_infix in H. vm_compute in H. discriminate.
Qed.

(** ** C7 *)

(** The entry loop sets the pronunciations once, from the header of the
    first entry that has one, unless a header was found before. *)
Lemma entry_loop_pron (gws : list str) (es : list located) (st st' : pstate) :
  entry_loop gws es st = inr st' ->
  pronunciation (result st')
  = if header_found st then pronunciation (result st)
    else match first_pos_header es with
         | Some h => read_header h (pronunciation (result st))
         | None => pronunciation (result st)
         end.
Proof.
  revert st; induction es as [|e es IH]; intros st; simpl.
  - intros H; injection H as <-. destruct (header_found st); reflexivity.
  - unfold entry_step. destruct (sense_loop _ _ _ _) as [x|st1] eqn:E; [discriminate|].
    intros H. apply IH in H. apply sense_loop_keeps in E as [E1 E2].
    rewrite H, E1, E2. unfold header_step.
    destruct (header_found st) eqn:Hf; [rewrite Hf; reflexivity|].
    destruct (find e (txt "div") (has_class (ClassIs (txt "pos-header")))) as [h|]; simpl.
    + reflexivity.
    + rewrite Hf. reflexivity.
Qed.

(** C7, amended.  The pronunciations of the record come from one header
    only: the [div.pos-header] found in the first entry block that has one
    (read by [read_header] into the empty pronunciations), or stay empty
    when no entry block has a header.  Entry blocks before that one have no
    header, and no later entry block changes them. *)
Theorem parse_cambridge_pronunciation_first_header (soup : node) (is_english : bool) (r : lookup) :
  parse_cambridge soup is_english = inr r ->
  pronunciation r =
  match find (soup, []) (txt "div")
              (has_class (ClassIs (if is_english then txt "page" else txt "di-body"))) with
  | None => empty_pronunciation
  | Some element =>
      match first_pos_header (find_all element (txt "div") (has_class (ClassIs (txt "entry-body__el")))) with
      | Some h => read_header h empty_pronunciation
      | None => empty_pronunciation
      end
  end.
Proof.
  unfold parse_cambridge.
  destruct (find (soup, []) _ _) as [element|].
  - destruct (entry_loop _ _ _) as [e|st] eqn:E; [discriminate|].
    intros H; injection H as <-. apply entry_loop_pron in E. exact E.
  - intros H; injection H as <-. reflexivity.
Qed.

Lemma parse_cambridge_pronunciation_first_header_witness :
  let r := match parse_cambridge page_header_second true with inr r => r | inl _ => empty_result end in
  parse_cambridge page_header_second true = inr r /\
  pronunciation r =
  match find (page_header_second, []) (txt "div") (has_class (ClassIs (txt "page"))) with
  | None => empty_pronunciation
  | Some element =>
      match first_pos_header (find_all element (txt "div") (has_class (ClassIs (txt "entry-body__el")))) with
      | Some h => read_header h empty_pronunciation
      | None => empty_pronunciation
      end
  end.
Proof.
  intros r.
  assert (H : parse_cambridge page_header_second true = inr r) by (vm_compute; reflexivity).
  split; [exact H|exact (parse_cambridge_pronunciation_first_header page_header_second true r H)].
Defined.

(** C7 as stated fails: [page_header_second] and [page_first_entry_only]
    have the same first entry block, one without a header; the second entry
    block of [page_header_second] gives the British pronunciation "/x/",
    while the page reduced to the first entry block gives none. *)
Lemma pronunciation_first_entry_counterexample :
  map fst (find_all (page_header_second, []) (txt "div") (has_class (ClassIs (txt "entry-body__el"))))
  = [entry_without_header; entry_with_header] /\
  map fst (find_all (page_first_entry_only, []) (txt "div") (has_class (ClassIs (txt "entry-body__el"))))
  = [entry_without_header] /\
  parse_cambridge page_header_second true
  = inr {| pronunciation := dict_set (txt "BrE") (txt "/x/") empty_pronunciation;
           image := []; thumb := []; definitions := [] |} /\
  parse_cambridge page_first_entry_only true = inr empty_result /\
  dict_set (txt "BrE") (txt "/x/") empty_pronunciation <> empty_pronunciation.
Proof. vm_compute. repeat split. discriminate. Qed.

(** ** C8 *)

Lemma record_image_fields (sense : located) (r : lookup) :
  image (record_image sense r) = lightbox_update (txt "data-image") sense (image r) /\
  thumb (record_image sense r) = lightbox_update (txt "src") sense (thumb r).
Proof.
  unfold record_image, lightbox_update.
  destruct (find sense _ _) as [[im im_anc]|]; [|auto].
  destruct (get_attr (txt "data-image") im) as [v|]; [destruct (nonempty v)|];
  (destruct (get_attr (txt "src") im) as [w|]; [destruct (nonempty w)|]); auto.
Qed.

(** C8, amended.  After a sense, the detail image of the record is the
    base followed by the [data-image] attribute of the first
    [img.lightboxLink] of the sense, and the thumbnail the base followed by
    its [src] attribute; each of the two is set on its own, only when its
    attribute is present and non-empty, and keeps its previous value
    otherwise. *)
Theorem sense_step_lightbox (gws : list str) (sense : located) (pg pg' : str) (st st' : pstate) :
  sense_step gws sense pg st = inr (pg', st') ->
  image (result st') = lightbox_update (txt "data-image") sense (image (result st)) /\
  thumb (result st') = lightbox_update (txt "src") sense (thumb (result st)).
Proof.
  unfold sense_step.
  destruct (class_first (class_of (fst sense))) as [c0|]; [|discriminate].
  destruct (if str_eqb c0 (txt "runon") then _ else _) as [pg1 rt].
  destruct (find sense (txt "div") (has_class ClassSenseBody)) as [sb|].
  - destruct (extract_definitions _ _ _ _ _ _) as [e|[defs s']]; [discriminate|].
    intros H; injection H as <- <-. exact (record_image_fields sense (add_definitions defs (result st))).
  - intros H; injection H as <- <-. apply record_image_fields.
Qed.

Lemma sense_step_lightbox_witness :
  let sense := (sense_with_image, @nil node) in
  let st := {| result := empty_result; header_found := true; gw_index := 0 |} in
  let out := match sense_step [] sense [] st with inr p => p | inl _ => ([], st) end in
  sense_step [] sense [] st = inr out /\
  image (result (snd out)) = lightbox_update (txt "data-image") sense (image (result st)) /\
  thumb (result (snd out)) = lightbox_update (txt "src") sense (thumb (result st)).
Proof.
  intros sense st out.
  assert (H : sense_step [] sense [] st = inr (fst out, snd out)) by (vm_compute; reflexivity).
  split; [exact H|exact (sense_step_lightbox [] sense [] (fst out) st (snd out) H)].
Defined.

(** C8 as stated fails: in [page_two_images] the second sense has a
    lightbox image with a new [data-image] and an empty [src]; the record
    ends with the new detail image next to the thumbnail of the first
    image, not the base followed by the empty [src]. *)
Lemma lightbox_both_variants_counterexample :
  parse_cambridge page_two_images true
  = inr {| pronunciation := empty_pronunciation;
           image := CAMBRIDGE_BASE ++ txt "new.jpg";
           thumb := CAMBRIDGE_BASE ++ txt "old_t.jpg"; definitions := [] |} /\
  CAMBRIDGE_BASE ++ txt "old_t.jpg" <> CAMBRIDGE_BASE ++ [].
Proof. split; [vm_compute; reflexivity|]. vm_compute. discriminate. Qed.

(* ------------------------------------------------------------------ *)
(** * Further properties of the script *)

(** ** normalize_text *)

Lemma punct_not_space (c : N) : is_punct c = true -> is_space c = false.
Proof.
  unfold is_punct. intros H. apply existsb_exists in H as [x [Hin Hx]].
  apply N.eqb_eq in Hx. subst x.
  repeat (destruct Hin as [<-|Hin]; [reflexivity|]). contradiction.
Qed.

Lemma close_not_space (c : N) : is_close_paren c = true -> is_space c = false.
Proof. unfold is_close_paren. intros H. apply N.eqb_eq in H. subst c. reflexivity. Qed.

Lemma pairwise_cons (R : N -> N -> bool) (c : N) (r : str) :
  pairwise R (c :: r) = (match r with d :: _ => R c d | [] => true end) && pairwise R r.
Proof. destruct r; reflexivity. Qed.

Lemma pairwise_spec (R : N -> N -> bool) (t : str) :
  pairwise R t = true <-> forall a b c d, t = a ++ c :: d :: b -> R c d = true.
Proof.
  split.
  - intros H a. revert t H. induction a as [|x a IH]; intros t H b c d ->.
    + simpl in H. apply andb_prop in H as [H _]. exact H.
    + rewrite <- app_comm_cons, pairwise_cons in H. apply andb_prop in H as [_ H].
      exact (IH _ H b c d eq_refl).
  - induction t as [|c r IH]; intros H; [reflexivity|].
    rewrite pairwise_cons. apply andb_true_intro. split.
    + destruct r as [|d r]; [reflexivity|]. exact (H [] r c d eq_refl).
    + apply IH. intros a b x y ->. exact (H (c :: a) b x y eq_refl).
Qed.

Lemma pairwise_app (R : N -> N -> bool) (x y : str) :
  pairwise R (x ++ y) = true -> pairwise R x = true /\ pairwise R y = true.
Proof.
  rewrite !pairwise_spec. intros H. split.
  - intros a b c d ->. apply (H a (b ++ y)). rewrite <- app_assoc. reflexivity.
  - intros a b c d ->. apply (H (x ++ a) b). rewrite <- app_assoc. reflexivity.
Qed.

Lemma pairwise_rev (R : N -> N -> bool) (t : str) :
  pairwise R t = true -> pairwise (fun c d => R d c) (rev t) = true.
Proof.
  rewrite !pairwise_spec. intros H a b c d E.
  apply (H (rev b) (rev a)).
  rewrite <- (rev_involutive t), E, rev_app_distr. simpl. rewrite <- !app_assoc. reflexivity.
Qed.

Lemma last_space_cons (c : N) (x : str) :
  last_space (c :: x) = match x with [] => is_space c | _ => last_space x end.
Proof.
  unfold last_space. destruct x as [|n x]; [reflexivity|].
  change (rev (c :: n :: x)) with (rev (n :: x) ++ [c]).
  simpl. destruct (rev x); reflexivity.
Qed.

Lemma last_space_app1 (r : str) (c : N) : last_space (r ++ [c]) = is_space c.
Proof. unfold last_space. rewrite rev_app_distr. reflexivity. Qed.

(** *** Deleting whitespace *)

Lemma del_sp_refl (t : str) : del_sp t t.
Proof. induction t; constructor; assumption. Qed.

Lemma del_sp_in (t t' : str) (c : N) : del_sp t t' -> In c t' -> In c t.
Proof.
  induction 1 as [|x t t' _ IH|x t t' _ _ IH]; simpl; [auto| |]; intros H.
  - destruct H; auto.
  - auto.
Qed.

Lemma del_sp_nonspace_head (d : N) (t t' : str) :
  del_sp (d :: t) t' -> is_space d = false -> exists t0, t' = d :: t0 /\ del_sp t t0.
Proof.
  intros H Hd. inversion H; subst.
  - eauto.
  - congruence.
Qed.

Lemma del_sp_first (t t' : str) : del_sp t t' -> first_space t = false -> first_space t' = false.
Proof.
  intros H Hf. destruct t as [|d t].
  - inversion H; reflexivity.
  - destruct (del_sp_nonspace_head d t t' H Hf) as [t0 [-> _]]. exact Hf.
Qed.

Lemma del_sp_nil_spaces (t : str) : del_sp t [] -> forall c, In c t -> is_space c = true.
Proof.
  remember [] as e eqn:Ee. induction 1 as [|x t t' _ IH|x t t' Hx _ IH]; intros c Hc.
  - destruct Hc.
  - discriminate.
  - destruct Hc as [<-|Hc]; auto.
Qed.

Lemma del_sp_last (t t' : str) : del_sp t t' -> last_space t = false -> last_space t' = false.
Proof.
  induction 1 as [|c t t' H IH|c t t' Hc H IH]; intros Hl; [reflexivity| |].
  - rewrite last_space_cons in Hl |- *. destruct t' as [|e t'].
    + destruct t as [|x t]; [exact Hl|].
      exfalso. unfold last_space in Hl.
      destruct (rev (x :: t)) as [|y ry] eqn:Er; [apply (f_equal (@List.length N)) in Er; simpl in Er; rewrite length_app in Er; simpl in Er; lia|].
      rewrite (del_sp_nil_spaces _ H y) in Hl; [discriminate|].
      apply in_rev. rewrite Er. left. reflexivity.
    + destruct t as [|x t]; [inversion H|]. apply IH, Hl.
  - rewrite last_space_cons in Hl. destruct t as [|x t]; [congruence|]. apply IH, Hl.
Qed.

Lemma space_followed_cons (c : N) (r : str) :
  space_followed (c :: r) = true ->
  space_followed r = true /\ (is_space c = true -> exists d r', r = d :: r' /\ is_space d = false).
Proof.
  unfold space_followed. rewrite pairwise_cons, last_space_cons.
  intros H. apply andb_prop in H as [H1 H2]. apply andb_prop in H1 as [Hh Hp].
  destruct r as [|d r'].
  - split; [reflexivity|]. intros Hc. rewrite Hc in H2. discriminate.
  - rewrite Hp, H2. split; [reflexivity|]. intros Hc. exists d, r'. split; [reflexivity|].
    rewrite Hc in Hh. destruct (is_space d); [discriminate|reflexivity].
Qed.

Lemma del_sp_head_space (t t' : str) (e : N) :
  del_sp t (e :: t') -> is_space e = true -> space_followed t = true -> exists r, t = e :: r.
Proof.
  intros H He Hs. inversion H as [|c t0 t0' H0|c t0 t0' Hc H0]; subst.
  - eauto.
  - destruct (space_followed_cons _ _ Hs) as [_ Hf].
    destruct (Hf Hc) as [d [r' [-> Hd]]].
    destruct (del_sp_nonspace_head d r' _ H0 Hd) as [t1 [E _]].
    injection E as <- _. congruence.
Qed.

Lemma del_sp_pairwise (R : N -> N -> bool) (t t' : str) :
  del_sp t t' -> space_followed t = true ->
  (forall c d, is_space c = false -> is_space d = false -> R c d = true) ->
  pairwise R t = true -> pairwise R t' = true.
Proof.
  intros H Hs HR. induction H as [|c t t' H IH|c t t' Hc H IH]; intros Hp; [reflexivity| |].
  - destruct (space_followed_cons _ _ Hs) as [Hs' Hf].
    rewrite pairwise_cons in Hp |- *. apply andb_prop in Hp as [Hh Hp].
    rewrite (IH Hs' Hp), andb_true_r.
    destruct t' as [|e t']; [reflexivity|].
    destruct (is_space e) eqn:He.
    + destruct (del_sp_head_space _ _ _ H He Hs') as [r ->]. exact Hh.
    + destruct (is_space c) eqn:Ec.
      * destruct (Hf eq_refl) as [d [r' [-> Hd]]].
        destruct (del_sp_nonspace_head d r' _ H Hd) as [t1 [E _]].
        injection E as <- _. exact Hh.
      * apply HR; assumption.
  - destruct (space_followed_cons _ _ Hs) as [Hs' _].
    rewrite pairwise_cons in Hp. apply andb_prop in Hp as [_ Hp]. exact (IH Hs' Hp).
Qed.

Lemma del_sp_space_followed (t t' : str) :
  del_sp t t' -> space_followed t = true -> space_followed t' = true.
Proof.
  intros H Hs. pose proof Hs as Hs'. unfold space_followed in Hs' |- *.
  apply andb_prop in Hs' as [Hp Hl].
  rewrite (del_sp_pairwise _ _ _ H Hs); [|intros c d Hc Hd; rewrite Hc; reflexivity|exact Hp].
  apply negb_true_iff in Hl. rewrite (del_sp_last _ _ H Hl). reflexivity.
Qed.

(** *** The four steps of [normalize_text] *)


Section RmBefore.

Variable P : N -> bool.

Lemma rm_before_del (t : str) : del_sp t (rm_before P t).
Proof.
  induction t as [|c r IH]; [constructor|].
  destruct r as [|d r']; [apply del_sp_refl|].
  change (rm_before P (c :: d :: r')) with
    (if is_space c && P d then rm_before P (d :: r') else c :: rm_before P (d :: r')).
  destruct (is_space c && P d) eqn:E.
  - apply andb_prop in E as [E _]. apply del_sp_drop; assumption.
  - apply del_sp_keep, IH.
Qed.

Lemma rm_before_nonspace (d : N) (r : str) :
  is_space d = false -> rm_before P (d :: r) = d :: rm_before P r.
Proof.
  intros Hd. destruct r as [|e r]; [reflexivity|].
  change (rm_before P (d :: e :: r)) with
    (if is_space d && P e then rm_before P (e :: r) else d :: rm_before P (e :: r)).
  rewrite Hd. reflexivity.
Qed.

Lemma rm_before_establish (t : str) :
  space_followed t = true -> pairwise (fun c d => negb (is_space c && P d)) (rm_before P t) = true.
Proof.
  induction t as [|c r IH]; intros Hs; [reflexivity|].
  destruct (space_followed_cons _ _ Hs) as [Hs' Hf].
  destruct r as [|d r']; [reflexivity|].
  change (rm_before P (c :: d :: r')) with
    (if is_space c && P d then rm_before P (d :: r') else c :: rm_before P (d :: r')).
  destruct (is_space c && P d) eqn:E; [exact (IH Hs')|].
  rewrite pairwise_cons, (IH Hs'), andb_true_r.
  destruct (is_space c) eqn:Ec; [|destruct (rm_before P (d :: r')); reflexivity].
  destruct (Hf eq_refl) as [d' [r'' [Ed Hd]]]. injection Ed as <- <-.
  rewrite (rm_before_nonspace d r' Hd), E. reflexivity.
Qed.

Lemma rm_before_id (t : str) :
  pairwise (fun c d => negb (is_space c && P d)) t = true -> rm_before P t = t.
Proof.
  induction t as [|c r IH]; intros Hp; [reflexivity|].
  rewrite pairwise_cons in Hp. apply andb_prop in Hp as [Hh Hp].
  destruct r as [|d r']; [reflexivity|].
  change (rm_before P (c :: d :: r')) with
    (if is_space c && P d then rm_before P (d :: r') else c :: rm_before P (d :: r')).
  apply negb_true_iff in Hh. rewrite Hh, (IH Hp). reflexivity.
Qed.

Lemma drop_before_eq (t : str) :
  space_followed t = true ->
  drop_ws_before P [] t = rm_before P t /\
  (forall c d r, t = d :: r -> is_space d = false ->
     drop_ws_before P [c] t = (if P d then [] else [c]) ++ rm_before P t).
Proof.
  induction t as [|x r IH]; intros Hs.
  - split; [reflexivity|]. intros c d r' E. discriminate.
  - destruct (space_followed_cons _ _ Hs) as [Hs' Hf].
    destruct (IH Hs') as [IH1 IH2].
    split.
    + cbn [drop_ws_before app]. destruct (is_space x) eqn:Ex.
      * destruct (Hf eq_refl) as [d [r' [-> Hd]]].
        rewrite (IH2 x d r' eq_refl Hd).
        change (rm_before P (x :: d :: r')) with
          (if is_space x && P d then rm_before P (d :: r') else x :: rm_before P (d :: r')).
        rewrite Ex. cbn [andb]. destruct (P d); reflexivity.
      * rewrite (rm_before_nonspace x r Ex), IH1. destruct (P x); reflexivity.
    + intros c d r' E Hd. injection E as <- <-. cbn [drop_ws_before app]. rewrite Hd.
      rewrite (rm_before_nonspace x r Hd), IH1. destruct (P x); reflexivity.
Qed.

End RmBefore.

Lemma after_open_del (t : str) (b : bool) : del_sp t (drop_ws_after_open b t).
Proof.
  revert b; induction t as [|c r IH]; intros b; [constructor|].
  simpl. destruct (b && is_space c) eqn:E.
  - apply andb_prop in E as [_ E]. apply del_sp_drop; [exact E|apply IH].
  - destruct (N.eqb c 40); apply del_sp_keep, IH.
Qed.

Lemma after_open_establish (t : str) (b : bool) :
  pairwise (fun c d => negb (N.eqb c 40 && is_space d)) (drop_ws_after_open b t) = true /\
  (b = true -> first_space (drop_ws_after_open b t) = false).
Proof.
  revert b; induction t as [|c r IH]; intros b; [split; reflexivity|].
  simpl. destruct (b && is_space c) eqn:E.
  { destruct (IH true) as [H1 H2]. split; [exact H1|intros _; apply H2; reflexivity]. }
  destruct (N.eqb c 40) eqn:E40.
  - destruct (IH true) as [IH1 IH2].
    rewrite pairwise_cons, IH1, andb_true_r. split.
    + specialize (IH2 eq_refl). destruct (drop_ws_after_open true r) as [|e r']; [reflexivity|].
      simpl in IH2. rewrite IH2. destruct (N.eqb c 40); reflexivity.
    + intros _. apply N.eqb_eq in E40. subst c. reflexivity.
  - destruct (IH false) as [IH1 _].
    rewrite pairwise_cons, IH1, andb_true_r. split.
    + destruct (drop_ws_after_open false r); [reflexivity|]. rewrite E40. reflexivity.
    + intros ->. exact E.
Qed.

Lemma after_open_id (t : str) (b : bool) :
  pairwise (fun c d => negb (N.eqb c 40 && is_space d)) t = true ->
  (b = true -> first_space t = false) -> drop_ws_after_open b t = t.
Proof.
  revert b; induction t as [|c r IH]; intros b Hp Hb; [reflexivity|].
  rewrite pairwise_cons in Hp. apply andb_prop in Hp as [Hh Hp].
  simpl. destruct (b && is_space c) eqn:E.
  - apply andb_prop in E as [-> E]. specialize (Hb eq_refl). simpl in Hb. congruence.
  - destruct (N.eqb c 40) eqn:E40.
    + rewrite (IH true Hp); [reflexivity|]. intros _.
      destruct r as [|d r']; [reflexivity|]. simpl.
      destruct (is_space d); [discriminate|reflexivity].
    + rewrite (IH false Hp); [reflexivity|discriminate].
Qed.

Lemma collapse_props (s : str) (b : bool) :
  forallb ws_is_space (collapse_ws b s) = true /\
  pairwise no_ws_pair (collapse_ws b s) = true /\
  (b = true -> first_space (collapse_ws b s) = false).
Proof.
  revert b; induction s as [|c r IH]; intros b; [repeat split; reflexivity|].
  cbn [collapse_ws]. destruct (is_space c) eqn:Ec.
  - destruct b; [apply IH|].
    destruct (IH true) as [H1 [H2 H3]]. specialize (H3 eq_refl).
    split; [|split; [|discriminate]].
    + cbn [forallb]. rewrite H1. reflexivity.
    + rewrite pairwise_cons, H2, andb_true_r.
      destruct (collapse_ws true r) as [|e r']; [reflexivity|].
      simpl in H3. unfold no_ws_pair. rewrite H3, andb_false_r. reflexivity.
  - destruct (IH false) as [H1 [H2 _]].
    split; [|split].
    + cbn [forallb]. rewrite H1, andb_true_r. unfold ws_is_space. rewrite Ec. reflexivity.
    + rewrite pairwise_cons, H2, andb_true_r.
      destruct (collapse_ws false r); [reflexivity|]. unfold no_ws_pair. rewrite Ec. reflexivity.
    + intros _. exact Ec.
Qed.

Lemma collapse_id (t : str) (b : bool) :
  forallb ws_is_space t = true -> pairwise no_ws_pair t = true ->
  (b = true -> first_space t = false) -> collapse_ws b t = t.
Proof.
  revert b; induction t as [|c r IH]; intros b Hw Hp Hb; [reflexivity|].
  simpl in Hw. apply andb_prop in Hw as [Hc Hw].
  rewrite pairwise_cons in Hp. apply andb_prop in Hp as [Hh Hp].
  simpl. destruct (is_space c) eqn:Ec.
  - destruct b; [specialize (Hb eq_refl); simpl in Hb; congruence|].
    unfold ws_is_space in Hc. rewrite Ec in Hc. apply N.eqb_eq in Hc. subst c.
    rewrite (IH true Hw Hp); [reflexivity|]. intros _.
    destruct r as [|d r']; [reflexivity|]. unfold no_ws_pair in Hh. simpl.
    destruct (is_space d); [discriminate|reflexivity].
  - rewrite (IH false Hw Hp); [reflexivity|discriminate].
Qed.

Lemma lstrip_suffix (x : str) : exists w, x = w ++ lstrip x.
Proof.
  induction x as [|c r [w IH]]; [exists []; reflexivity|].
  simpl. destruct (is_space c).
  - exists (c :: w). simpl. rewrite <- IH. reflexivity.
  - exists []. reflexivity.
Qed.

Lemma lstrip_first (x : str) : first_space (lstrip x) = false.
Proof.
  induction x as [|c r IH]; [reflexivity|]. simpl. destruct (is_space c) eqn:E; [exact IH|exact E].
Qed.

Lemma lstrip_id (x : str) : first_space x = false -> lstrip x = x.
Proof. destruct x as [|c r]; [reflexivity|]. simpl. intros ->. reflexivity. Qed.

Lemma strip_props (x : str) :
  (forall c, In c (strip x) -> In c x) /\
  (pairwise no_ws_pair x = true -> pairwise no_ws_pair (strip x) = true) /\
  first_space (strip x) = false /\ last_space (strip x) = false.
Proof.
  unfold strip.
  destruct (lstrip_suffix x) as [w1 E1].
  set (y := lstrip x) in *.
  destruct (lstrip_suffix (rev y)) as [w2 E2].
  set (z := lstrip (rev y)) in *.
  assert (Ey : y = rev z ++ rev w2).
  { rewrite <- (rev_involutive y), E2, rev_app_distr. reflexivity. }
  split; [|split; [|split]].
  - intros c Hc. apply in_rev in Hc. rewrite E1. apply in_or_app. right.
    rewrite Ey. apply in_or_app. left. apply in_rev. rewrite rev_involutive. exact Hc.
  - intros Hp. rewrite E1 in Hp. apply pairwise_app in Hp as [_ Hp].
    rewrite Ey in Hp. apply pairwise_app in Hp as [Hp _]. exact Hp.
  - assert (Hy : first_space y = false) by apply lstrip_first.
    rewrite Ey in Hy. destruct (rev z); [reflexivity|exact Hy].
  - unfold last_space. rewrite rev_involutive. apply lstrip_first.
Qed.

Lemma strip_id (x : str) : first_space x = false -> last_space x = false -> strip x = x.
Proof.
  intros Hf Hl. unfold strip. rewrite (lstrip_id x Hf), lstrip_id; [apply rev_involutive|].
  unfold last_space in Hl. destruct (rev x); exact Hl.
Qed.

Lemma del_sp_forallb (f : N -> bool) (t t' : str) :
  del_sp t t' -> forallb f t = true -> forallb f t' = true.
Proof.
  intros D H. apply forallb_forall. intros c Hc.
  apply (proj1 (forallb_forall _ _) H), (del_sp_in _ _ _ D Hc).
Qed.

Lemma normalize_text_facts (s : str) :
  let t := normalize_text s in
  forallb ws_is_space t = true /\ first_space t = false /\ space_followed t = true /\
  pairwise (fun c d => negb (is_space c && is_punct d)) t = true /\
  pairwise (fun c d => negb (N.eqb c 40 && is_space d)) t = true /\
  pairwise (fun c d => negb (is_space c && is_close_paren d)) t = true.
Proof.
  unfold normalize_text. cbv zeta.
  destruct (collapse_props s false) as [C1 [C2 _]].
  set (t0 := collapse_ws false s) in *.
  destruct (strip_props t0) as [S1 [S2 [S3 S4]]].
  set (t1 := strip t0) in *.
  assert (W1 : forallb ws_is_space t1 = true).
  { apply forallb_forall. intros c Hc. apply (proj1 (forallb_forall _ _) C1), S1, Hc. }
  assert (F1 : space_followed t1 = true).
  { unfold space_followed. fold no_ws_pair. rewrite (S2 C2), S4. reflexivity. }
  assert (Rc : forall (P : N -> bool) c d, is_space c = false -> is_space d = false ->
                 negb (is_space c && P d) = true).
  { intros P c d Hc _. rewrite Hc. reflexivity. }
  (* [,.;:!?] *)
  rewrite (proj1 (drop_before_eq is_punct t1 F1)).
  pose proof (rm_before_del is_punct t1) as D2.
  pose proof (rm_before_establish is_punct t1 F1) as P2.
  set (t2 := rm_before is_punct t1) in *.
  pose proof (del_sp_forallb _ _ _ D2 W1) as W2.
  pose proof (del_sp_first _ _ D2 S3) as I2.
  pose proof (del_sp_space_followed _ _ D2 F1) as F2.
  (* opening parenthesis *)
  pose proof (after_open_del t2 false) as D3.
  pose proof (proj1 (after_open_establish t2 false)) as O3.
  set (t3 := drop_ws_after_open false t2) in *.
  pose proof (del_sp_forallb _ _ _ D3 W2) as W3.
  pose proof (del_sp_first _ _ D3 I2) as I3.
  pose proof (del_sp_space_followed _ _ D3 F2) as F3.
  pose proof (del_sp_pairwise _ _ _ D3 F2 (Rc is_punct) P2) as P3.
  (* closing parenthesis *)
  rewrite (proj1 (drop_before_eq is_close_paren t3 F3)).
  pose proof (rm_before_del is_close_paren t3) as D4.
  pose proof (rm_before_establish is_close_paren t3 F3) as Q4.
  set (t4 := rm_before is_close_paren t3) in *.
  pose proof (del_sp_forallb _ _ _ D4 W3) as W4.
  pose proof (del_sp_first _ _ D4 I3) as I4.
  pose proof (del_sp_space_followed _ _ D4 F3) as F4.
  pose proof (del_sp_pairwise _ _ _ D4 F3 (Rc is_punct) P3) as P4.
  assert (O4 : pairwise (fun c d => negb (N.eqb c 40 && is_space d)) t4 = true).
  { apply (del_sp_pairwise _ _ _ D4 F3); [|exact O3].
    intros c d _ Hd. rewrite Hd, andb_false_r. reflexivity. }
  repeat split; assumption.
Qed.

Lemma shape_of_facts (t : str) :
  forallb ws_is_space t = true -> first_space t = false -> space_followed t = true ->
  pairwise (fun c d => negb (is_space c && is_punct d)) t = true ->
  pairwise (fun c d => negb (N.eqb c 40 && is_space d)) t = true ->
  pairwise (fun c d => negb (is_space c && is_close_paren d)) t = true ->
  normalized_shape t.
Proof.
  intros W I F P O Q.
  unfold space_followed in F. apply andb_prop in F as [F L].
  rewrite pairwise_spec in F, P, O, Q.
  split; [|split; [|split; [|split]]].
  - intros c r ->. exact I.
  - intros r c ->. rewrite last_space_app1 in L. destruct (is_space c); [discriminate|reflexivity].
  - intros c Hc Hs. pose proof (proj1 (forallb_forall _ _) W c Hc) as Hw.
    unfold ws_is_space in Hw. rewrite Hs in Hw. apply N.eqb_eq, Hw.
  - intros a b c d E Hc.
    specialize (F a b c d E). specialize (P a b c d E). specialize (Q a b c d E).
    rewrite Hc in F, P, Q. simpl in F, P, Q.
    apply negb_true_iff in F, P, Q. auto.
  - intros a b d E. specialize (O a b 40 d E). simpl in O. apply negb_true_iff in O. exact O.
Qed.

Lemma facts_of_shape (t : str) :
  normalized_shape t ->
  forallb ws_is_space t = true /\ first_space t = false /\ last_space t = false /\
  pairwise no_ws_pair t = true /\
  pairwise (fun c d => negb (is_space c && is_punct d)) t = true /\
  pairwise (fun c d => negb (N.eqb c 40 && is_space d)) t = true /\
  pairwise (fun c d => negb (is_space c && is_close_paren d)) t = true.
Proof.
  intros (H1 & H2 & H3 & H4 & H5).
  split; [|split; [|split; [|split; [|split; [|split]]]]].
  - apply forallb_forall. intros c Hc. unfold ws_is_space.
    destruct (is_space c) eqn:Hs; [|reflexivity]. rewrite (H3 c Hc Hs). reflexivity.
  - destruct t as [|c r]; [reflexivity|]. exact (H1 c r eq_refl).
  - unfold last_space. destruct (rev t) as [|c rr] eqn:E; [reflexivity|].
    apply (H2 (rev rr)). rewrite <- (rev_involutive t), E. reflexivity.
  - apply pairwise_spec. intros a b c d E. unfold no_ws_pair.
    destruct (is_space c) eqn:Hc; [|reflexivity]. destruct (H4 a b c d E Hc) as [-> _]. reflexivity.
  - apply pairwise_spec. intros a b c d E.
    destruct (is_space c) eqn:Hc; [|reflexivity]. destruct (H4 a b c d E Hc) as [_ [-> _]]. reflexivity.
  - apply pairwise_spec. intros a b c d E.
    destruct (N.eqb c 40) eqn:Ho; [|reflexivity]. apply N.eqb_eq in Ho. subst c.
    rewrite (H5 a b d E). reflexivity.
  - apply pairwise_spec. intros a b c d E.
    destruct (is_space c) eqn:Hc; [|reflexivity]. destruct (H4 a b c d E Hc) as [_ [_ ->]]. reflexivity.
Qed.

Lemma normalize_text_shape_aux (s : str) : normalized_shape (normalize_text s).
Proof.
  destruct (normalize_text_facts s) as (W & I & F & P & O & Q).
  exact (shape_of_facts _ W I F P O Q).
Qed.

Lemma normalize_text_fixpoint_aux (t : str) : normalized_shape t -> normalize_text t = t.
Proof.
  intros H. destruct (facts_of_shape t H) as (W & I & L & Pw & P & O & Q).
  assert (F : space_followed t = true).
  { unfold space_followed. fold no_ws_pair. rewrite Pw, L. reflexivity. }
  unfold normalize_text. cbv zeta.
  rewrite (collapse_id t false W Pw); [|discriminate].
  rewrite (strip_id t I L).
  rewrite (proj1 (drop_before_eq is_punct t F)), (rm_before_id is_punct t P).
  rewrite (after_open_id t false O); [|discriminate].
  rewrite (proj1 (drop_before_eq is_close_paren t F)), (rm_before_id is_close_paren t Q).
  reflexivity.
Qed.

(** X1: whatever its input, [normalize_text] returns a text with no
    whitespace at either end, whose whitespace characters are all plain
    spaces, never two in a row, never directly before one of
    , . ; : ! ? or a closing parenthesis and never directly after an
    opening parenthesis. *)
Theorem normalize_text_shape (s : str) : normalized_shape (normalize_text s).
Proof. exact (normalize_text_shape_aux s). Qed.

(** X2: the texts [normalize_text] leaves unchanged are exactly the texts
    of that shape. *)
Theorem normalize_text_fixed_points (t : str) : normalize_text t = t <-> normalized_shape t.
Proof.
  split.
  - intros E. rewrite <- E. apply normalize_text_shape_aux.
  - apply normalize_text_fixpoint_aux.
Qed.

(** X3: [normalize_text] is idempotent: normalizing a normalized text
    changes nothing. *)
Theorem normalize_text_idempotent (s : str) : normalize_text (normalize_text s) = normalize_text s.
Proof. apply normalize_text_fixpoint_aux, normalize_text_shape_aux. Qed.

(** ** render_html *)

Lemma format_definition_eq (index : nat) (definition : str) :
  format_definition index definition
  = match tag_match definition with
    | Some _ => inl ReError
    | None => inr (formatted_item index definition)
    end.
Proof.
  unfold format_definition, formatted_item.
  destruct (tag_match definition); [reflexivity|].
  cbn [nonempty]. rewrite <- !app_assoc. reflexivity.
Qed.

Lemma format_all_inr (i : nat) (defs xs : list str) :
  format_all i defs = inr xs ->
  List.length xs = List.length defs /\
  forall k d, nth_error defs k = Some d -> nth_error xs k = Some (formatted_item (S i + k) d).
Proof.
  revert i xs; induction defs as [|d defs IH]; intros i xs H.
  - injection H as <-. split; [reflexivity|]. intros [|k] d' E; discriminate.
  - simpl in H. rewrite format_definition_eq in H.
    destruct (tag_match d); [discriminate|].
    destruct (format_all (S i) defs) as [e|ys] eqn:E; [discriminate|].
    injection H as <-. destruct (IH _ _ E) as [IH1 IH2]. split; [simpl; congruence|].
    intros [|k] d' Hk.
    + injection Hk as <-. simpl. rewrite Nat.add_0_r. reflexivity.
    + simpl in Hk |- *. rewrite (IH2 k d' Hk). do 2 f_equal. lia.
Qed.

Lemma format_all_inl (i : nat) (defs : list str) (e : exn) :
  format_all i defs = inl e -> e = ReError /\ Exists (fun d => tag_match d <> None) defs.
Proof.
  revert i; induction defs as [|d defs IH]; intros i H; [discriminate|].
  simpl in H. rewrite format_definition_eq in H.
  destruct (tag_match d) as [m|] eqn:Em.
  - injection H as <-. split; [reflexivity|]. left. congruence.
  - destruct (format_all (S i) defs) as [e'|ys] eqn:E; [|discriminate].
    injection H as <-. destruct (IH _ E) as [IH1 IH2]. split; [exact IH1|]. right. exact IH2.
Qed.

Lemma format_all_exists_bad (i : nat) (defs : list str) :
  Exists (fun d => tag_match d <> None) defs -> format_all i defs = inl ReError.
Proof.
  intros H. revert i; induction H as [d defs Hd|d defs H IH]; intros i; simpl;
    rewrite format_definition_eq.
  - destruct (tag_match d); [reflexivity|congruence].
  - destruct (tag_match d); [reflexivity|]. rewrite IH. reflexivity.
Qed.

Lemma format_all_all_good (i : nat) (defs : list str) :
  Forall (fun d => tag_match d = None) defs -> exists xs, format_all i defs = inr xs.
Proof.
  intros H. revert i; induction H as [|d defs Hd H IH]; intros i; [exists []; reflexivity|].
  simpl. rewrite format_definition_eq, Hd. destruct (IH (S i)) as [xs ->]. eexists. reflexivity.
Qed.

Lemma render_html_cases (data : lookup) (word url : str) (css_path : option str) :
  (forall e, render_html data word url css_path = inl e ->
     e = ReError /\ Exists (fun d => tag_match d <> None) (definitions data)) /\
  (Exists (fun d => tag_match d <> None) (definitions data) ->
     render_html data word url css_path = inl ReError) /\
  (Forall (fun d => tag_match d = None) (definitions data) ->
     exists doc, render_html data word url css_path = inr doc).
Proof.
  unfold render_html.
  destruct (definitions data) as [|d defs] eqn:Ed.
  - split; [discriminate|split; [intros H; inversion H|intros _; eexists; reflexivity]].
  - split; [|split].
    + intros e. destruct (format_all 0 (d :: defs)) as [e'|xs] eqn:E; [|discriminate].
      intros H. injection H as <-. exact (format_all_inl _ _ _ E).
    + intros H. rewrite (format_all_exists_bad 0 _ H). reflexivity.
    + intros H. destruct (format_all_all_good 0 _ H) as [xs ->]. eexists. reflexivity.
Qed.

Lemma tag_match_backslash (d : str) (m : str * str) : tag_match d = Some m -> hd_error d = Some 92.
Proof.
  unfold tag_match, match_unit.
  destruct d as [|b [|c [|rb r1]]]; try discriminate.
  destruct (N.eqb b 92) eqn:Eb; [|discriminate].
  apply N.eqb_eq in Eb. subst b. reflexivity.
Qed.

(** X6: in a page [render_html] returns, the definition at position [k]
    of the record appears as the list item numbered [k + 1] (two digits at
    least), with the definition text stripped. *)
Theorem render_html_items (data : lookup) (word url : str) (css_path : option str) (doc : str) :
  render_html data word url css_path = inr doc ->
  forall k d, nth_error (definitions data) k = Some d -> occurs_in (formatted_item (S k) d) doc.
Proof.
  intros H k d Hk. unfold render_html in H.
  destruct (definitions data) as [|d0 defs] eqn:Ed; [destruct k; discriminate|].
  destruct (format_all 0 (d0 :: defs)) as [e|xs] eqn:E; [discriminate|].
  destruct (format_all_inr _ _ _ E) as [_ Hx].
  specialize (Hx k d Hk). simpl in Hx.
  apply (occurs_in_trans _ (txt "        " ++ join [10] xs)).
  - apply (occurs_in_trans _ (join [10] xs)).
    + apply occurs_in_join. apply nth_error_In with k. exact Hx.
    + exists (txt "        "), []. rewrite app_nil_r. reflexivity.
  - match type of H with inr (unlines ?l) = inr _ =>
      assert (Hl : occurs_in (txt "        " ++ join [10] xs) (unlines l))
        by (apply occurs_in_unlines; cbv [In]; tauto)
    end.
    injection H as Hd. rewrite <- Hd. exact Hl.
Qed.

(** X4: [render_html] fails only with [re.error], and it fails exactly
    when some definition of the record matches the tag pattern of
    [format_definition]. *)
Theorem render_html_error_cases (data : lookup) (word url : str) (css_path : option str) :
  (forall e, render_html data word url css_path = inl e -> e = ReError) /\
  ((exists e, render_html data word url css_path = inl e) <->
   Exists (fun d => tag_match d <> None) (definitions data)).
Proof.
  destruct (render_html_cases data word url css_path) as [H1 [H2 _]].
  split; [intros e H; exact (proj1 (H1 e H))|split].
  - intros [e H]. exact (proj2 (H1 e H)).
  - intros H. exists ReError. exact (H2 H).
Qed.

(** X5: when no definition of the record starts with a backslash,
    [render_html] returns a document, whatever the other fields and
    [css_path]. *)
Theorem render_html_total_without_backslash (data : lookup) (word url : str) (css_path : option str) :
  Forall (fun d => hd_error d <> Some 92) (definitions data) ->
  exists doc, render_html data word url css_path = inr doc.
Proof.
  intros H. apply (proj2 (proj2 (render_html_cases data word url css_path))).
  apply (Forall_impl _ (P := fun d => hd_error d <> Some 92)); [|exact H].
  intros d Hd. destruct (tag_match d) as [m|] eqn:E; [|reflexivity].
  exfalso. exact (Hd (tag_match_backslash d m E)).
Qed.

Lemma render_html_total_without_backslash_witness :
  Forall (fun d => hd_error d <> Some 92) (definitions record_one_definition) /\
  exists doc, render_html record_one_definition (txt "w") (txt "u") None = inr doc.
Proof.
  assert (H : Forall (fun d => hd_error d <> Some 92) (definitions record_one_definition))
    by (repeat constructor; vm_compute; discriminate).
  split; [exact H|exact (render_html_total_without_backslash _ _ _ None H)].
Defined.

Lemma render_html_items_witness :
  let doc := match render_html record_one_definition (txt "w") (txt "u") None with
             | inr d => d | inl _ => [] end in
  render_html record_one_definition (txt "w") (txt "u") None = inr doc /\
  occurs_in (formatted_item 1%nat (txt "[verb] to move quickly")) doc.
Proof.
  intros doc.
  assert (H : render_html record_one_definition (txt "w") (txt "u") None = inr doc)
    by (vm_compute; reflexivity).
  split; [exact H|exact (render_html_items _ _ _ _ _ H 0%nat _ eq_refl)].
Defined.

(** ** parse_cambridge *)

Lemma descendants_tag (nm : str) (c : option (list str)) (a : list (str * str)) (kids : list node)
    (anc : list node) :
  descendants anc (Tag nm c a kids)
  = flat_map (fun k => (k, Tag nm c a kids :: anc) :: descendants (Tag nm c a kids :: anc) k) kids.
Proof.
  change (descendants anc (Tag nm c a kids)) with
    ((fix go (ks : list node) : list located :=
        match ks with
        | [] => []
        | k :: ks' => (k, Tag nm c a kids :: anc) :: descendants (Tag nm c a kids :: anc) k ++ go ks'
        end) kids).
  generalize (Tag nm c a kids :: anc) as up. intros up.
  induction kids as [|k ks IH]; [reflexivity|]. simpl. rewrite IH. reflexivity.
Qed.

Lemma lightbox_update_base (k : str) (sense : located) (old : str) :
  base_url_or_empty old -> base_url_or_empty (lightbox_update k sense old).
Proof.
  intros H. unfold lightbox_update.
  destruct (find sense _ _) as [[im ?]|]; [|exact H].
  destruct (get_attr k im) as [v|]; [|exact H].
  destruct (nonempty v); [|exact H]. right. eexists. reflexivity.
Qed.

Lemma sense_step_result (gws : list str) (sense : located) (pg pg' : str) (st st' : pstate) :
  sense_step gws sense pg st = inr (pg', st') ->
  exists r0, result st' = record_image sense r0 /\ image r0 = image (result st) /\
             thumb r0 = thumb (result st) /\ pronunciation r0 = pronunciation (result st).
Proof.
  unfold sense_step.
  destruct (class_first (class_of (fst sense))) as [c0|]; [|discriminate].
  destruct (if str_eqb c0 (txt "runon") then _ else _) as [pg1 rt].
  destruct (find sense (txt "div") (has_class ClassSenseBody)) as [sb|].
  - destruct (extract_definitions _ _ _ _ _ _) as [e|[defs s']]; [discriminate|].
    intros H; injection H as <- <-. eexists; repeat split; reflexivity.
  - intros H; injection H as <- <-. eexists; repeat split; reflexivity.
Qed.

Lemma sense_loop_urls (gws : list str) (senses : list located) :
  forall pg st st',
  sense_loop gws senses pg st = inr st' ->
  base_url_or_empty (image (result st)) -> base_url_or_empty (thumb (result st)) ->
  base_url_or_empty (image (result st')) /\ base_url_or_empty (thumb (result st')).
Proof.
  induction senses as [|sense rest IH]; intros pg st st'; simpl.
  - intros H; injection H as <-; auto.
  - destruct (sense_step gws sense pg st) as [e|[pg1 st1]] eqn:E; [discriminate|].
    intros H Hi Ht. apply (IH pg1 st1 st' H).
    + destruct (sense_step_result _ _ _ _ _ _ E) as [r0 [-> [E1 _]]].
      rewrite (proj1 (record_image_fields sense r0)). apply lightbox_update_base. rewrite E1. exact Hi.
    + destruct (sense_step_result _ _ _ _ _ _ E) as [r0 [-> [_ [E2 _]]]].
      rewrite (proj2 (record_image_fields sense r0)). apply lightbox_update_base. rewrite E2. exact Ht.
Qed.

Lemma header_step_images (e : located) (st : pstate) :
  image (result (header_step e st)) = image (result st) /\
  thumb (result (header_step e st)) = thumb (result st).
Proof.
  unfold header_step. destruct (header_found st); [auto|].
  destruct (find e _ _); auto.
Qed.

Lemma entry_loop_urls (gws : list str) (es : list located) :
  forall st st',
  entry_loop gws es st = inr st' ->
  base_url_or_empty (image (result st)) -> base_url_or_empty (thumb (result st)) ->
  base_url_or_empty (image (result st')) /\ base_url_or_empty (thumb (result st')).
Proof.
  induction es as [|e es IH]; intros st st'; simpl.
  - intros H; injection H as <-; auto.
  - unfold entry_step. destruct (sense_loop _ _ _ _) as [x|st1] eqn:E; [discriminate|].
    intros H Hi Ht. destruct (header_step_images e st) as [E1 E2].
    apply (IH st1 st' H); apply (sense_loop_urls _ _ _ _ _ E); rewrite ?E1, ?E2; assumption.
Qed.

(** X11: the [image] and [thumb] fields of a record that
    [parse_cambridge] returns are each empty or the Cambridge base URL
    followed by a path. *)
Theorem parse_cambridge_image_urls (soup : node) (is_english : bool) (r : lookup) :
  parse_cambridge soup is_english = inr r ->
  base_url_or_empty (image r) /\ base_url_or_empty (thumb r).
Proof.
  unfold parse_cambridge.
  destruct (find (soup, []) _ _) as [element|].
  - destruct (entry_loop _ _ _) as [e|st'] eqn:El; [discriminate|].
    intros H; injection H as <-. apply (entry_loop_urls _ _ _ _ El); left; reflexivity.
  - intros H; injection H as <-. split; left; reflexivity.
Qed.

Lemma dict_set_in (k v : str) (d : list (str * str)) (k' v' : str) :
  In (k', v') (dict_set k v d) -> (k' = k /\ v' = v) \/ In (k', v') d.
Proof.
  unfold dict_set. destruct (existsb _ d).
  - intros H. apply in_map_iff in H as [[k0 v0] [Hkv Hin]]. simpl in Hkv.
    destruct (str_eqb k0 k); injection Hkv as <- <-; [left; auto|right; exact Hin].
  - intros H. apply in_app_or in H as [H|[H|[]]]; [right; exact H|injection H as <- <-; left; auto].
Qed.

Lemma read_pron_audio (d : list (str * str)) (tag : located) :
  audio_urls_ok d -> audio_urls_ok (read_pron d tag).
Proof.
  intros Hd. unfold read_pron.
  set (key := if str_eqb _ (txt "us") then txt "AmE" else txt "BrE").
  assert (Hkey : key = txt "AmE" \/ key = txt "BrE") by (subst key; destruct (str_eqb _ _); auto).
  assert (H1 : audio_urls_ok (dict_set key (text_of (find tag (txt "span") (has_class (ClassIs (txt "pron"))))) d)).
  { intros k v Hin Hk. apply dict_set_in in Hin as [[-> _]|Hin]; [|exact (Hd k v Hin Hk)].
    exfalso. destruct Hkey as [E|E]; rewrite E in Hk; destruct Hk as [F|F]; vm_compute in F; discriminate F. }
  destruct (find tag (txt "source") _) as [[source ?]|]; [|exact H1].
  destruct (get_attr (txt "src") source) as [src|]; [|exact H1].
  destruct (nonempty src); [|exact H1].
  intros k v Hin Hk. apply dict_set_in in Hin as [[_ ->]|Hin]; [|exact (H1 k v Hin Hk)].
  right. eexists. reflexivity.
Qed.

Lemma read_header_audio (header : located) (d : list (str * str)) :
  audio_urls_ok d -> audio_urls_ok (read_header header d).
Proof.
  unfold read_header. generalize (find_all header (txt "span") (has_class (ClassIs (txt "dpron-i")))).
  intros l; revert d; induction l as [|t l IH]; intros d Hd; simpl; [exact Hd|].
  apply IH, read_pron_audio, Hd.
Qed.

Lemma entry_loop_audio (gws : list str) (es : list located) :
  forall st st',
  entry_loop gws es st = inr st' ->
  audio_urls_ok (pronunciation (result st)) -> audio_urls_ok (pronunciation (result st')).
Proof.
  induction es as [|e es IH]; intros st st'; simpl.
  - intros H; injection H as <-; auto.
  - unfold entry_step. destruct (sense_loop _ _ _ _) as [x|st1] eqn:E; [discriminate|].
    intros H Hst. apply (IH st1 st' H).
    apply sense_loop_keeps in E as [E _]. rewrite E.
    unfold header_step. destruct (header_found st); [exact Hst|].
    destruct (find e _ _) as [h|]; [|exact Hst].
    simpl. apply read_header_audio, Hst.
Qed.

(** X12: in the pronunciation dictionary of a record that
    [parse_cambridge] returns, every value of the keys "AmEmp3" and
    "BrEmp3" is empty or the Cambridge base URL followed by a path. *)
Theorem parse_cambridge_audio_urls (soup : node) (is_english : bool) (r : lookup) :
  parse_cambridge soup is_english = inr r ->
  forall k v, In (k, v) (pronunciation r) -> (k = txt "AmEmp3" \/ k = txt "BrEmp3") ->
  base_url_or_empty v.
Proof.
  assert (H0 : audio_urls_ok (pronunciation empty_result)).
  { intros k v Hin _. cbv [empty_result pronunciation empty_pronunciation In] in Hin.
    left. destruct Hin as [H|[H|[H|[H|[]]]]]; injection H as _ <-; reflexivity. }
  unfold parse_cambridge.
  destruct (find (soup, []) _ _) as [element|].
  - destruct (entry_loop _ _ _) as [e|st'] eqn:El; [discriminate|].
    intros H; injection H as <-. exact (entry_loop_audio _ _ _ _ El H0).
  - intros H; injection H as <-. exact H0.
Qed.

Lemma assoc_dict_set_same (k v : str) (d : list (str * str)) : assoc k (dict_set k v d) = Some v.
Proof.
  unfold dict_set. destruct (existsb _ d) eqn:Ex.
  - induction d as [|[k0 v0] r IH]; [discriminate|]. simpl in Ex |- *.
    destruct (str_eqb k0 k) eqn:E0; simpl; [rewrite str_eqb_refl; reflexivity|].
    assert (E1 : str_eqb k k0 = false).
    { destruct (str_eqb k k0) eqn:E; [|reflexivity]. apply str_eqb_eq in E. subst.
      rewrite str_eqb_refl in E0. discriminate. }
    rewrite E1. apply IH. exact Ex.
  - induction d as [|[k0 v0] r IH]; simpl; [rewrite str_eqb_refl; reflexivity|].
    simpl in Ex. apply orb_false_iff in Ex as [E0 Ex].
    assert (E1 : str_eqb k k0 = false).
    { destruct (str_eqb k k0) eqn:E; [|reflexivity]. apply str_eqb_eq in E. subst.
      rewrite str_eqb_refl in E0. discriminate. }
    rewrite E1. apply IH. exact Ex.
Qed.

Lemma assoc_dict_set_other (k k' v : str) (d : list (str * str)) :
  str_eqb k' k = false -> assoc k' (dict_set k v d) = assoc k' d.
Proof.
  intros Hk. unfold dict_set. destruct (existsb _ d).
  - induction d as [|[k0 v0] r IH]; [reflexivity|]. simpl.
    destruct (str_eqb k0 k) eqn:E0; simpl.
    + apply str_eqb_eq in E0. subst k0. rewrite Hk. exact IH.
    + destruct (str_eqb k' k0); [reflexivity|exact IH].
  - induction d as [|[k0 v0] r IH]; simpl; [rewrite Hk; reflexivity|].
    destruct (str_eqb k' k0); [reflexivity|exact IH].
Qed.

(** X13: one [span.dpron-i] writes the text of its [span.pron] (empty
    when absent) under "AmE" when the text of its [span.region] is exactly
    "us", under "BrE" otherwise, and leaves the pronunciation and the audio
    entries of the other region unchanged. *)
Theorem read_pron_region (d : list (str * str)) (tag : located) :
  let reg := text_of (find tag (txt "span") (has_class (ClassIs (txt "region")))) in
  let key := if str_eqb reg (txt "us") then txt "AmE" else txt "BrE" in
  let other := if str_eqb reg (txt "us") then txt "BrE" else txt "AmE" in
  assoc key (read_pron d tag) = Some (text_of (find tag (txt "span") (has_class (ClassIs (txt "pron"))))) /\
  assoc other (read_pron d tag) = assoc other d /\
  assoc (other ++ txt "mp3") (read_pron d tag) = assoc (other ++ txt "mp3") d.
Proof.
  intros reg key other. unfold read_pron. fold reg. fold key.
  set (p := text_of (find tag (txt "span") (has_class (ClassIs (txt "pron"))))).
  assert (Hk : str_eqb key (key ++ txt "mp3") = false /\ str_eqb other key = false /\
               str_eqb other (key ++ txt "mp3") = false /\ str_eqb (other ++ txt "mp3") key = false /\
               str_eqb (other ++ txt "mp3") (key ++ txt "mp3") = false).
  { subst key other. destruct (str_eqb reg (txt "us")); vm_compute; repeat split. }
  destruct Hk as (H1 & H2 & H3 & H4 & H5).
  assert (Hd : assoc key (dict_set key p d) = Some p /\
               assoc other (dict_set key p d) = assoc other d /\
               assoc (other ++ txt "mp3") (dict_set key p d) = assoc (other ++ txt "mp3") d).
  { split; [apply assoc_dict_set_same|split; apply assoc_dict_set_other; assumption]. }
  destruct (find tag (txt "source") _) as [[source ?]|]; [|exact Hd].
  destruct (get_attr (txt "src") source) as [src|]; [|exact Hd].
  destruct (nonempty src); [|exact Hd].
  rewrite (assoc_dict_set_other _ key _ _ H1), (assoc_dict_set_other _ other _ _ H3),
    (assoc_dict_set_other _ (other ++ txt "mp3") _ _ H5).
  auto.
Qed.

Lemma gw_bound_refl (len : nat) (s : xstate) : gw_bound len s s.
Proof. unfold gw_bound. lia. Qed.

Lemma gw_bound_trans (len : nat) (s1 s2 s3 : xstate) :
  gw_bound len s1 s2 -> gw_bound len s2 s3 -> gw_bound len s1 s3.
Proof. unfold gw_bound. lia. Qed.

Lemma iter_M_preserves {A} (R : xstate -> xstate -> Prop) (f : A -> M unit) (l : list A) :
  (forall s, R s s) -> (forall s1 s2 s3, R s1 s2 -> R s2 s3 -> R s1 s3) ->
  (forall x s s', In x l -> f x s = inr (tt, s') -> R s s') ->
  forall s s', iter_M f l s = inr (tt, s') -> R s s'.
Proof.
  intros Hr Ht Hf. induction l as [|x l IH]; intros s s' H.
  - simpl in H. injection H as <-. apply Hr.
  - simpl in H. unfold bind in H. destruct (f x s) as [e|[[] s1]] eqn:E; [discriminate|].
    apply (Ht s s1 s'); [exact (Hf x s s1 (or_introl eq_refl) E)|].
    exact (IH (fun y s0 s0' Hy => Hf y s0 s0' (or_intror Hy)) s1 s' H).
Qed.

Lemma extract_sense_gw (pos_gram : str) (runon_title sense_gw : option str) (gws : list str)
    (fuel : nat) :
  forall block anc phrase s s',
  extract_sense pos_gram runon_title sense_gw (Some (next_guideword gws)) fuel block anc phrase s
  = inr (tt, s') -> gw_bound (List.length gws) s s'.
Proof.
  induction fuel as [|fuel IH]; intros block anc phrase s s'.
  { intros H. injection H as <-. apply gw_bound_refl. }
  destruct block as [t|name cls attrs kids].
  { intros H. injection H as <-. apply gw_bound_refl. }
  rewrite extract_sense_S_Tag.
  assert (Hemit : forall ph, emit_definition pos_gram runon_title sense_gw (Some (next_guideword gws))
                    (Tag name cls attrs kids, anc) ph s = inr (tt, s') -> gw_bound (List.length gws) s s').
  { intros ph. unfold emit_definition, bind. rewrite resolve_guideword_choice. unfold append_item.
    intros H. injection H as <-. unfold gw_bound. cbn [guideword_index]. unfold guideword_choice.
    destruct (truthy _); cbn [snd]; [lia|].
    destruct (nth_error gws (guideword_index s)) eqn:E; cbn [snd]; [|lia].
    assert (guideword_index s < List.length gws)%nat by (apply nth_error_Some; congruence). lia. }
  destruct (class_first cls) as [bt|]; [|discriminate].
  destruct (str_eqb bt (txt "def-block")); [apply Hemit|].
  destruct (str_eqb bt (txt "phrase-block")).
  - destruct (find (Tag name cls attrs kids, anc) (txt "div") _) as [[pb pb_anc]|].
    + apply iter_M_preserves; [apply gw_bound_refl|apply gw_bound_trans|].
      intros x s0 s0' _. apply IH.
    + intros H. injection H as <-. apply gw_bound_refl.
  - destruct (str_eqb bt (txt "runon-body")); [apply Hemit|].
    intros H. injection H as <-. apply gw_bound_refl.
Qed.

(** X14: [extract_definitions] leaves the caller's item list alone, and
    the guideword counter it threads only moves forward and never goes
    past the number of guidewords unless it already was. *)
Theorem extract_definitions_guideword_index (pos_gram : str) (runon_title guideword : option str)
    (gws : list str) (sb : located) (s s' : xstate) (ds : list str) :
  extract_definitions pos_gram runon_title guideword (Some (next_guideword gws)) sb s = inr (ds, s') ->
  items s' = items s /\
  (guideword_index s <= guideword_index s' <= Nat.max (guideword_index s) (List.length gws))%nat.
Proof.
  unfold extract_definitions.
  destruct (iter_M _ _ _) as [e|[[] s1]] eqn:E; [discriminate|].
  intros H. injection H as _ <-. split; [reflexivity|]. cbn [guideword_index].
  apply (iter_M_preserves (gw_bound (List.length gws))) in E;
    [exact E|apply gw_bound_refl|apply gw_bound_trans|].
  intros x s0 s0' _. apply extract_sense_gw.
Qed.

Lemma parse_cambridge_image_urls_witness :
  let r := match parse_cambridge page_two_images true with inr r => r | inl _ => empty_result end in
  parse_cambridge page_two_images true = inr r /\
  base_url_or_empty (image r) /\ base_url_or_empty (thumb r).
Proof.
  intros r. assert (H : parse_cambridge page_two_images true = inr r) by (vm_compute; reflexivity).
  split; [exact H|exact (parse_cambridge_image_urls _ _ _ H)].
Defined.

Lemma parse_cambridge_audio_urls_witness :
  let r := match parse_cambridge page_with_audio true with inr r => r | inl _ => empty_result end in
  parse_cambridge page_with_audio true = inr r /\
  In (txt "AmEmp3", CAMBRIDGE_BASE ++ txt "media/x.mp3") (pronunciation r) /\
  (forall k v, In (k, v) (pronunciation r) -> (k = txt "AmEmp3" \/ k = txt "BrEmp3") ->
   base_url_or_empty v).
Proof.
  intros r. assert (H : parse_cambridge page_with_audio true = inr r) by (vm_compute; reflexivity).
  split; [exact H|split; [|exact (parse_cambridge_audio_urls _ _ _ H)]].
  vm_compute. tauto.
Defined.

Lemma extract_definitions_guideword_index_witness :
  let sb := (sense_body_x, @nil node) in
  let s0 := {| items := []; guideword_index := 0 |} in
  let out := match extract_definitions [] None None (Some (next_guideword [txt "G0"])) sb s0 with
             | inr p => p | inl _ => ([], s0) end in
  extract_definitions [] None None (Some (next_guideword [txt "G0"])) sb s0 = inr out /\
  guideword_index (snd out) = 1%nat /\
  items (snd out) = items s0 /\
  (guideword_index s0 <= guideword_index (snd out) <= Nat.max (guideword_index s0) (List.length [txt "G0"]))%nat.
Proof.
  intros sb s0 out.
  assert (H : extract_definitions [] None None (Some (next_guideword [txt "G0"])) sb s0 = inr (fst out, snd out))
    by (vm_compute; reflexivity).
  split; [exact H|split; [vm_compute; reflexivity|]].
  exact (extract_definitions_guideword_index _ _ _ _ _ _ _ _ H).
Defined.

(** * Where the definition strings come from *)

Lemma desc_trans (n : node) :
  forall anc y z, In y (descendants anc n) -> In z (descendants (snd y) (fst y)) ->
  In z (descendants anc n).
Proof.
  induction n as [s|nm c a kids IH] using node_ind_list; intros anc y z Hy Hz; [destruct Hy|].
  rewrite descendants_tag in Hy |- *. apply in_flat_map in Hy as [k [Hk Hy]].
  apply in_flat_map. exists k. split; [exact Hk|].
  destruct Hy as [<-|Hy].
  - right. exact Hz.
  - right. exact (proj1 (Forall_forall _ _) IH k Hk _ y z Hy Hz).
Qed.

Lemma child_desc (x : located) (k : node) :
  In k (children (fst x)) -> In (k, fst x :: snd x) (descendants (snd x) (fst x)).
Proof.
  destruct x as [[s|nm c a kids] anc]; cbn [fst snd children]; [intros []|].
  intros Hk. rewrite descendants_tag. apply in_flat_map. exists k. split; [exact Hk|left; reflexivity].
Qed.

Lemma find_all_desc (x : located) (name : str) (p : node -> bool) (d : located) :
  In d (find_all x name p) -> In d (descendants (snd x) (fst x)).
Proof. unfold find_all. intros H. apply filter_In in H. exact (proj1 H). Qed.

Lemma find_desc (x : located) (name : str) (p : node -> bool) (d : located) :
  find x name p = Some d -> In d (descendants (snd x) (fst x)).
Proof.
  unfold find. intros H. apply (find_all_desc x name p).
  destruct (find_all x name p); [discriminate|]. injection H as ->. left. reflexivity.
Qed.

Lemma iter_M_grows {A} (Q : str -> Prop) (f : A -> M unit) (l : list A) :
  (forall x s s', In x l -> f x s = inr (tt, s') ->
     exists new, items s' = items s ++ new /\ Forall Q new) ->
  forall s s', iter_M f l s = inr (tt, s') -> exists new, items s' = items s ++ new /\ Forall Q new.
Proof.
  intros Hf. apply (iter_M_preserves (fun s s' => exists new, items s' = items s ++ new /\ Forall Q new)).
  - intros s. exists []. rewrite app_nil_r. auto.
  - intros s1 s2 s3 [n1 [E1 F1]] [n2 [E2 F2]]. exists (n1 ++ n2).
    split; [rewrite E2, E1, app_assoc; reflexivity|apply Forall_app; auto].
  - exact Hf.
Qed.

Lemma extract_sense_emits (pos_gram : str) (runon_title sense_gw : option str) (gws : list str)
    (fuel : nat) :
  forall block anc phrase s s',
  extract_sense pos_gram runon_title sense_gw (Some (next_guideword gws)) fuel block anc phrase s
  = inr (tt, s') ->
  exists new, items s' = items s ++ new /\
  Forall (fun d => exists blk ph i,
            (blk = (block, anc) \/ In blk (descendants anc block)) /\
            (class_first (class_of (fst blk)) = Some (txt "def-block") \/
             class_first (class_of (fst blk)) = Some (txt "runon-body")) /\
            d = definition_string pos_gram runon_title blk ph
                  (fst (guideword_choice sense_gw (snd blk) gws i))) new.
Proof.
  induction fuel as [|fuel IH]; intros block anc phrase s s' H.
  { injection H as <-. exists []. rewrite app_nil_r. auto. }
  destruct block as [t|name cls attrs kids].
  { injection H as <-. exists []. rewrite app_nil_r. auto. }
  rewrite extract_sense_S_Tag in H.
  assert (Hemit : forall ph,
    emit_definition pos_gram runon_title sense_gw (Some (next_guideword gws))
      (Tag name cls attrs kids, anc) ph s = inr (tt, s') ->
    (class_first cls = Some (txt "def-block") \/ class_first cls = Some (txt "runon-body")) ->
    exists new, items s' = items s ++ new /\
    Forall (fun d => exists blk ph i,
              (blk = (Tag name cls attrs kids, anc) \/ In blk (descendants anc (Tag name cls attrs kids))) /\
              (class_first (class_of (fst blk)) = Some (txt "def-block") \/
               class_first (class_of (fst blk)) = Some (txt "runon-body")) /\
              d = definition_string pos_gram runon_title blk ph
                    (fst (guideword_choice sense_gw (snd blk) gws i))) new).
  { intros ph He Hc. unfold emit_definition, bind in He. rewrite resolve_guideword_choice in He.
    unfold append_item in He. injection He as <-. eexists. split; [reflexivity|].
    constructor; [|constructor].
    exists (Tag name cls attrs kids, anc), ph, (guideword_index s).
    split; [left; reflexivity|split; [exact Hc|reflexivity]]. }
  destruct (class_first cls) as [bt|] eqn:Ecf; [|discriminate].
  destruct (str_eqb bt (txt "def-block")) eqn:E1.
  { apply str_eqb_eq in E1. subst bt. apply (Hemit _ H). left; reflexivity. }
  destruct (str_eqb bt (txt "phrase-block")).
  - destruct (find (Tag name cls attrs kids, anc) (txt "div") _) as [[pb pb_anc]|] eqn:Epb.
    + revert H. apply iter_M_grows. intros x s0 s0' Hx Hs.
      destruct (IH _ _ _ _ _ Hs) as [new [En Fn]]. exists new. split; [exact En|].
      refine (Forall_impl _ _ Fn). intros d (blk & ph & i & Hb & Hc & Hd).
      exists blk, ph, i. split; [|split; assumption]. right.
      pose proof (find_desc _ _ _ _ Epb) as Hpb.
      pose proof (child_desc (pb, pb_anc) x Hx) as Hxc.
      assert (Hx' : In (x, pb :: pb_anc) (descendants anc (Tag name cls attrs kids)))
        by exact (desc_trans _ _ (pb, pb_anc) _ Hpb Hxc).
      destruct Hb as [->|Hb]; [exact Hx'|exact (desc_trans _ _ (x, pb :: pb_anc) _ Hx' Hb)].
    + injection H as <-. exists []. rewrite app_nil_r. auto.
  - destruct (str_eqb bt (txt "runon-body")) eqn:E3.
    + apply str_eqb_eq in E3. subst bt. apply (Hemit _ H). right; reflexivity.
    + injection H as <-. exists []. rewrite app_nil_r. auto.
Qed.

Lemma extract_definitions_emits (pos_gram : str) (runon_title sense_gw : option str) (gws : list str)
    (sb : located) (s s' : xstate) (ds : list str) :
  extract_definitions pos_gram runon_title sense_gw (Some (next_guideword gws)) sb s = inr (ds, s') ->
  Forall (fun d => exists blk ph i,
            In blk (descendants (snd sb) (fst sb)) /\
            (class_first (class_of (fst blk)) = Some (txt "def-block") \/
             class_first (class_of (fst blk)) = Some (txt "runon-body")) /\
            d = definition_string pos_gram runon_title blk ph
                  (fst (guideword_choice sense_gw (snd blk) gws i))) ds.
Proof.
  unfold extract_definitions.
  destruct (iter_M _ _ _) as [e|[[] s1]] eqn:E; [discriminate|].
  intros H. injection H as <- _.
  set (Q := fun d => exists blk ph i,
            In blk (descendants (snd sb) (fst sb)) /\
            (class_first (class_of (fst blk)) = Some (txt "def-block") \/
             class_first (class_of (fst blk)) = Some (txt "runon-body")) /\
            d = definition_string pos_gram runon_title blk ph
                  (fst (guideword_choice sense_gw (snd blk) gws i))).
  assert (Hf : forall x s0 s0', In x (children (fst sb)) ->
     extract_sense pos_gram runon_title sense_gw (Some (next_guideword gws)) (node_depth (fst sb)) x
       (fst sb :: snd sb) None s0 = inr (tt, s0') ->
     exists new, items s0' = items s0 ++ new /\ Forall Q new).
  { intros x s0 s0' Hx Hs. destruct (extract_sense_emits _ _ _ _ _ _ _ _ _ _ Hs) as [new [En Fn]].
    exists new. split; [exact En|]. refine (Forall_impl _ _ Fn).
    intros d (blk & ph & i & Hb & Hc & Hd). exists blk, ph, i. split; [|split; assumption].
    pose proof (child_desc sb x Hx) as Hxc.
    destruct Hb as [->|Hb]; [exact Hxc|exact (desc_trans _ _ (x, fst sb :: snd sb) _ Hxc Hb)]. }
  destruct (iter_M_grows Q _ _ Hf _ _ E) as [new [En Fn]]. cbn [items] in En. rewrite En. exact Fn.
Qed.

Lemma record_image_definitions (sense : located) (r : lookup) :
  definitions (record_image sense r) = definitions r.
Proof.
  unfold record_image.
  destruct (find sense _ _) as [[im ?]|]; [|reflexivity].
  destruct (get_attr (txt "data-image") im) as [v|]; [destruct (nonempty v)|];
  (destruct (get_attr (txt "src") im) as [w|]; [destruct (nonempty w)|]); reflexivity.
Qed.

Lemma sense_step_emits (gws : list str) (sense : located) (pg pg' : str) (st st' : pstate) :
  sense_step gws sense pg st = inr (pg', st') ->
  exists ds, definitions (result st') = definitions (result st) ++ ds /\ Forall (emitted_from gws sense) ds.
Proof.
  unfold sense_step.
  destruct (class_first (class_of (fst sense))) as [c0|]; [|discriminate].
  destruct (if str_eqb c0 (txt "runon") then _ else _) as [pg1 rt].
  destruct (find sense (txt "div") (has_class ClassSenseBody)) as [sb|] eqn:Esb.
  - destruct (extract_definitions _ _ _ _ _ _) as [e|[defs s']] eqn:Ex; [discriminate|].
    intros H; injection H as <- <-. exists defs. cbn [result with_result].
    rewrite record_image_definitions. split; [reflexivity|].
    refine (Forall_impl _ _ (extract_definitions_emits _ _ _ _ _ _ _ _ Ex)).
    intros d (blk & ph & i & Hb & Hc & Hd).
    exists pg1, rt, blk, ph, i. split; [|split; [exact Hc|exact Hd]].
    exact (desc_trans _ _ sb _ (find_desc _ _ _ _ Esb) Hb).
  - intros H; injection H as <- <-. exists []. cbn [result with_result].
    rewrite record_image_definitions, app_nil_r. auto.
Qed.

Lemma sense_loop_emits (gws : list str) (senses : list located) :
  forall pg st st',
  sense_loop gws senses pg st = inr st' ->
  exists ds, definitions (result st') = definitions (result st) ++ ds /\
             Forall (fun d => exists sense, In sense senses /\ emitted_from gws sense d) ds.
Proof.
  induction senses as [|sense rest IH]; intros pg st st'; simpl.
  - intros H; injection H as <-. exists []. rewrite app_nil_r. auto.
  - destruct (sense_step gws sense pg st) as [e|[pg1 st1]] eqn:E; [discriminate|].
    intros H. destruct (sense_step_emits _ _ _ _ _ _ E) as [d1 [E1 F1]].
    destruct (IH _ _ _ H) as [d2 [E2 F2]]. exists (d1 ++ d2).
    split; [rewrite E2, E1, app_assoc; reflexivity|].
    apply Forall_app. split.
    + refine (Forall_impl _ _ F1). intros d Hd. exists sense. auto.
    + refine (Forall_impl _ _ F2). intros d [x [Hx Hd]]. exists x. auto.
Qed.

Lemma header_step_definitions (e : located) (st : pstate) :
  definitions (result (header_step e st)) = definitions (result st).
Proof.
  unfold header_step. destruct (header_found st); [reflexivity|].
  destruct (find e _ _); reflexivity.
Qed.

Lemma entry_loop_emits (gws : list str) (es : list located) :
  forall st st',
  entry_loop gws es st = inr st' ->
  exists ds, definitions (result st') = definitions (result st) ++ ds /\
             Forall (fun d => exists entry sense, In entry es /\ In sense (descendants (snd entry) (fst entry)) /\
                                                emitted_from gws sense d) ds.
Proof.
  induction es as [|e es IH]; intros st st'; simpl.
  - intros H; injection H as <-. exists []. rewrite app_nil_r. auto.
  - unfold entry_step. destruct (sense_loop _ _ _ _) as [x|st1] eqn:E; [discriminate|].
    intros H. destruct (sense_loop_emits _ _ _ _ _ E) as [d1 [E1 F1]].
    destruct (IH _ _ H) as [d2 [E2 F2]]. exists (d1 ++ d2).
    split; [rewrite E2, E1, header_step_definitions, app_assoc; reflexivity|].
    apply Forall_app. split.
    + refine (Forall_impl _ _ F1). intros d [sense [Hs Hd]]. exists e, sense.
      split; [left; reflexivity|split; [exact (find_all_desc _ _ _ _ Hs)|exact Hd]].
    + refine (Forall_impl _ _ F2). intros d (x & y & Hx & Hy & Hd). exists x, y.
      split; [right; exact Hx|auto].
Qed.

Lemma parse_cambridge_emits (soup : node) (is_english : bool) (r : lookup) :
  parse_cambridge soup is_english = inr r ->
  Forall (fun d => exists element sense,
            find (soup, []) (txt "div")
              (has_class (ClassIs (if is_english then txt "page" else txt "di-body"))) = Some element /\
            In sense (descendants [] soup) /\
            emitted_from (page_guideword_list element) sense d) (definitions r).
Proof.
  unfold parse_cambridge.
  destruct (find (soup, []) _ _) as [element|] eqn:Ee.
  - destruct (entry_loop _ _ _) as [e|st'] eqn:El; [discriminate|].
    intros H; injection H as <-.
    destruct (entry_loop_emits _ _ _ _ El) as [ds [Eds Fds]].
    rewrite Eds. cbn [result definitions empty_result app].
    refine (Forall_impl _ _ Fds). intros d (entry & sense & He & Hs & Hd).
    exists element, sense. split; [reflexivity|split; [|exact Hd]].
    pose proof (find_desc _ _ _ _ Ee) as Hel.
    pose proof (desc_trans _ _ element _ Hel (find_all_desc _ _ _ _ He)) as Hen.
    exact (desc_trans _ _ entry _ Hen Hs).
  - intros H; injection H as <-. constructor.
Qed.

Lemma definition_string_parts (pos_gram : str) (runon_title : option str) (block : located)
    (phrase g : option str) :
  definition_string pos_gram runon_title block phrase g
  = join (txt " ") (filter nonempty
      [join (txt " ") (bracketed_tags (definition_tags pos_gram runon_title block phrase g));
       definition_body_text block]).
Proof. reflexivity. Qed.

Lemma extract_sense_phrase_emits (pos_gram : str) (runon_title sense_gw : option str) (gws : list str)
    (fuel : nat) :
  forall block anc phrase s s',
  extract_sense pos_gram runon_title sense_gw (Some (next_guideword gws)) fuel block anc phrase s
  = inr (tt, s') ->
  exists new, items s' = items s ++ new /\
  Forall (fun d =>
            ((class_first (class_of block) = Some (txt "def-block") \/
              class_first (class_of block) = Some (txt "runon-body")) /\
             exists g, d = definition_string pos_gram runon_title (block, anc) phrase g) \/
            exists P pb pb_anc blk g,
              (P = (block, anc) \/ In P (descendants anc block)) /\
              class_first (class_of (fst P)) = Some (txt "phrase-block") /\
              find P (txt "div") (has_class (ClassIs (txt "phrase-body pad-indent"))) = Some (pb, pb_anc) /\
              In blk (children pb) /\
              (class_first (class_of blk) = Some (txt "def-block") \/
               class_first (class_of blk) = Some (txt "runon-body")) /\
              d = definition_string pos_gram runon_title (blk, pb :: pb_anc) (phrase_header_text P) g) new.
Proof.
  induction fuel as [|fuel IH]; intros block anc phrase s s' H.
  { injection H as <-. exists []. rewrite app_nil_r. auto. }
  destruct block as [t|name cls attrs kids].
  { injection H as <-. exists []. rewrite app_nil_r. auto. }
  rewrite extract_sense_S_Tag in H.
  destruct (class_first cls) as [bt|] eqn:Ecf; [|discriminate].
  destruct (str_eqb bt (txt "def-block")) eqn:E1.
  { apply str_eqb_eq in E1. subst bt.
    destruct (emit_definition_items _ _ _ _ _ _ _ _ H) as [g Eg].
    eexists. split; [exact Eg|]. constructor; [|constructor]. left.
    split; [left; exact Ecf|exists g; reflexivity]. }
  destruct (str_eqb bt (txt "phrase-block")) eqn:E2.
  - apply str_eqb_eq in E2. subst bt.
    destruct (find (Tag name cls attrs kids, anc) (txt "div") _) as [[pb pb_anc]|] eqn:Epb.
    + revert H. apply iter_M_grows. intros x s0 s0' Hx Hs.
      destruct (IH _ _ _ _ _ Hs) as [new [En Fn]]. exists new. split; [exact En|].
      pose proof (find_desc _ _ _ _ Epb) as Hpb.
      pose proof (child_desc (pb, pb_anc) x Hx) as Hxc.
      assert (Hx' : In (x, pb :: pb_anc) (descendants anc (Tag name cls attrs kids)))
        by exact (desc_trans _ _ (pb, pb_anc) _ Hpb Hxc).
      refine (Forall_impl _ _ Fn). intros d [[Hc [g Hd]]|(P & pb' & pb_anc' & blk & g & HP & Rest)]; right.
      * exists (Tag name cls attrs kids, anc), pb, pb_anc, x, g.
        split; [left; reflexivity|]. split; [exact Ecf|]. split; [exact Epb|].
        split; [exact Hx|]. split; [exact Hc|exact Hd].
      * exists P, pb', pb_anc', blk, g. split; [|exact Rest]. right.
        destruct HP as [->|HP]; [exact Hx'|exact (desc_trans _ _ (x, pb :: pb_anc) _ Hx' HP)].
    + injection H as <-. exists []. rewrite app_nil_r. auto.
  - destruct (str_eqb bt (txt "runon-body")) eqn:E3.
    + apply str_eqb_eq in E3. subst bt.
      destruct (emit_definition_items _ _ _ _ _ _ _ _ H) as [g Eg].
      eexists. split; [exact Eg|]. constructor; [|constructor]. left.
      split; [right; exact Ecf|exists g; reflexivity].
    + injection H as <-. exists []. rewrite app_nil_r. auto.
Qed.

Lemma phrase_tag_bracketed (pos_gram : str) (runon_title : option str) (block : located)
    (h : str) (g : option str) :
  nonempty h = true ->
  In (txt "[" ++ h ++ txt "]") (bracketed_tags (definition_tags pos_gram runon_title block (Some h) g)).
Proof.
  intros Hh. unfold bracketed_tags, definition_tags. cbv zeta.
  apply (in_map (fun t => txt "[" ++ t ++ txt "]")).
  apply in_flat_map. exists (Some h). split; [apply in_or_app; left; simpl; auto|].
  rewrite Hh. left. reflexivity.
Qed.

(** ** C2 *)

(** C2: every definition string in the record the parser returns is built
    from a definition block or runon body of the page, as the bracketed tag
    block followed by the definition text (empty parts dropped); on the page
    with one entry, one part-of-speech header [p] and one definition block
    "to move quickly", the definitions are exactly "[p] to move quickly". *)
Theorem parse_one_definition_tag_first :
  (forall (soup : node) (is_english : bool) (r : lookup),
     parse_cambridge soup is_english = inr r ->
     Forall (fun d => exists blk pos_gram runon_title phrase g,
               In blk (descendants [] soup) /\
               (class_first (class_of (fst blk)) = Some (txt "def-block") \/
                class_first (class_of (fst blk)) = Some (txt "runon-body")) /\
               d = join (txt " ") (filter nonempty
                     [join (txt " ") (bracketed_tags (definition_tags pos_gram runon_title blk phrase g));
                      definition_body_text blk])) (definitions r)) /\
  (forall p : str, nonempty p = true ->
     parse_cambridge (page_one_definition p) true
     = inr {| pronunciation := empty_pronunciation; image := []; thumb := [];
              definitions := [txt "[" ++ p ++ txt "] to move quickly"] |}).
Proof.
  split.
  - intros soup is_english r H.
    refine (Forall_impl _ _ (parse_cambridge_emits _ _ _ H)).
    intros d (element & sense & _ & Hs & (pg & rt & blk & ph & i & Hb & Hc & Hd)).
    exists blk, pg, rt, ph, (fst (guideword_choice (sense_guideword sense) (snd blk) (page_guideword_list element) i)).
    split; [exact (desc_trans _ _ sense _ Hs Hb)|]. split; [exact Hc|].
    rewrite Hd. apply definition_string_parts.
  - exact parse_one_definition_result.
Qed.

(** ** C3 *)


(** ** C4 *)

(** C4, as the code has it: a block that is not a phrase block and is
    handed a non-empty header text [h] emits strings whose bracketed tags
    include [[h]]; and every string emitted beneath a phrase block, whatever
    header that block was handed, comes from a definition block or runon
    body that is a child of the body of some phrase block [P] at or below
    it, and carries the header of [P], the innermost one. *)
Theorem phrase_header_attached :
  (forall (pos_gram : str) (runon_title sense_gw : option str) (gws : list str) (fuel : nat)
          (block : node) (anc : list node) (h : str) (s s' : xstate),
     nonempty h = true ->
     class_first (class_of block) <> Some (txt "phrase-block") ->
     extract_sense pos_gram runon_title sense_gw (Some (next_guideword gws)) fuel block anc (Some h) s
     = inr (tt, s') ->
     exists new, items s' = items s ++ new /\
     Forall (fun d => exists g,
               d = join (txt " ") (filter nonempty
                     [join (txt " ") (bracketed_tags (definition_tags pos_gram runon_title (block, anc) (Some h) g));
                      definition_body_text (block, anc)]) /\
               In (txt "[" ++ h ++ txt "]")
                  (bracketed_tags (definition_tags pos_gram runon_title (block, anc) (Some h) g))) new) /\
  (forall (pos_gram : str) (runon_title sense_gw : option str) (gws : list str) (fuel : nat)
          (block : node) (anc : list node) (phrase : option str) (s s' : xstate),
     class_first (class_of block) = Some (txt "phrase-block") ->
     extract_sense pos_gram runon_title sense_gw (Some (next_guideword gws)) fuel block anc phrase s
     = inr (tt, s') ->
     exists new, items s' = items s ++ new /\
     Forall (fun d => exists P pb pb_anc blk g,
               (P = (block, anc) \/ In P (descendants anc block)) /\
               class_first (class_of (fst P)) = Some (txt "phrase-block") /\
               find P (txt "div") (has_class (ClassIs (txt "phrase-body pad-indent"))) = Some (pb, pb_anc) /\
               In blk (children pb) /\
               (class_first (class_of blk) = Some (txt "def-block") \/
                class_first (class_of blk) = Some (txt "runon-body")) /\
               d = definition_string pos_gram runon_title (blk, pb :: pb_anc) (phrase_header_text P) g) new).
Proof.
  split.
  - intros pg rt sgw gws fuel block anc h s s' Hh Hnp H.
    destruct fuel as [|fuel]; [injection H as <-; exists []; rewrite app_nil_r; auto|].
    destruct block as [t|name cls attrs kids]; [injection H as <-; exists []; rewrite app_nil_r; auto|].
    rewrite extract_sense_S_Tag in H. change (class_of (Tag name cls attrs kids)) with cls in Hnp.
    assert (Hem : emit_definition pg rt sgw (Some (next_guideword gws)) (Tag name cls attrs kids, anc)
                    (Some h) s = inr (tt, s') ->
       exists new, items s' = items s ++ new /\
       Forall (fun d => exists g,
               d = join (txt " ") (filter nonempty
                     [join (txt " ") (bracketed_tags (definition_tags pg rt (Tag name cls attrs kids, anc) (Some h) g));
                      definition_body_text (Tag name cls attrs kids, anc)]) /\
               In (txt "[" ++ h ++ txt "]")
                  (bracketed_tags (definition_tags pg rt (Tag name cls attrs kids, anc) (Some h) g))) new).
    { intros He. destruct (emit_definition_items _ _ _ _ _ _ _ _ He) as [g Eg].
      eexists. split; [exact Eg|]. constructor; [|constructor]. exists g.
      split; [apply definition_string_parts|apply phrase_tag_bracketed; exact Hh]. }
    destruct (class_first cls) as [bt|]; [|discriminate].
    destruct (str_eqb bt (txt "def-block")); [exact (Hem H)|].
    destruct (str_eqb bt (txt "phrase-block")) eqn:E2; [apply str_eqb_eq in E2; subst bt; contradiction|].
    destruct (str_eqb bt (txt "runon-body")); [exact (Hem H)|].
    injection H as <-. exists []. rewrite app_nil_r. auto.
  - intros pg rt sgw gws fuel block anc phrase s s' Hp H.
    destruct (extract_sense_phrase_emits _ _ _ _ _ _ _ _ _ _ H) as [new [En Fn]].
    exists new. split; [exact En|]. refine (Forall_impl _ _ Fn).
    intros d [[[Hc|Hc] _]|Hd]; [rewrite Hp in Hc; discriminate|rewrite Hp in Hc; discriminate|exact Hd].
Qed.

(** ** Witnesses for C2, C3 and C4 *)

Lemma parse_one_definition_tag_first_witness :
  parse_cambridge (page_one_definition (txt "verb")) true = inr record_one_definition /\
  (exists blk pos_gram runon_title phrase g,
     In blk (descendants [] (page_one_definition (txt "verb"))) /\
     (class_first (class_of (fst blk)) = Some (txt "def-block") \/
      class_first (class_of (fst blk)) = Some (txt "runon-body")) /\
     txt "[verb] to move quickly"
     = join (txt " ") (filter nonempty
         [join (txt " ") (bracketed_tags (definition_tags pos_gram runon_title blk phrase g));
          definition_body_text blk])) /\
  parse_cambridge (page_one_definition (txt "verb")) true
  = inr {| pronunciation := empty_pronunciation; image := []; thumb := [];
           definitions := [txt "[" ++ txt "verb" ++ txt "] to move quickly"] |}.
Proof.
  assert (H : parse_cambridge (page_one_definition (txt "verb")) true = inr record_one_definition)
    by (vm_compute; reflexivity).
  split; [exact H|]. split.
  - exact (Forall_inv (proj1 parse_one_definition_tag_first _ _ _ H)).
  - apply (proj2 parse_one_definition_tag_first). reflexivity.
Defined.


Lemma phrase_header_attached_witness :
  (exists g,
     txt "[verb] [P] x"
     = join (txt " ") (filter nonempty
         [join (txt " ") (bracketed_tags (definition_tags (txt "verb") None (def_block_x, []) (Some (txt "P")) g));
          definition_body_text (def_block_x, [])]) /\
     In (txt "[" ++ txt "P" ++ txt "]")
        (bracketed_tags (definition_tags (txt "verb") None (def_block_x, []) (Some (txt "P")) g))) /\
  (exists P pb pb_anc blk g,
     (P = (phrase_block_x, []) \/ In P (descendants [] phrase_block_x)) /\
     class_first (class_of (fst P)) = Some (txt "phrase-block") /\
     find P (txt "div") (has_class (ClassIs (txt "phrase-body pad-indent"))) = Some (pb, pb_anc) /\
     In blk (children pb) /\
     (class_first (class_of blk) = Some (txt "def-block") \/
      class_first (class_of blk) = Some (txt "runon-body")) /\
     txt "[verb] [P1] x" = definition_string (txt "verb") None (blk, pb :: pb_anc) (phrase_header_text P) g).
Proof.
  split.
  - assert (H : extract_sense (txt "verb") None None (Some (next_guideword [])) 1%nat def_block_x [] (Some (txt "P"))
                  {| items := []; guideword_index := 0%nat |}
                = inr (tt, {| items := [txt "[verb] [P] x"]; guideword_index := 0%nat |}))
      by (vm_compute; reflexivity).
    destruct (proj1 phrase_header_attached (txt "verb") None None [] 1%nat def_block_x [] (txt "P") _ _ ltac:(reflexivity) ltac:(discriminate) H)
      as [new [En Fn]].
    cbn [items app] in En. subst new.
    exact (Forall_inv Fn).
  - assert (H : extract_sense (txt "verb") None None (Some (next_guideword [])) 2%nat phrase_block_x [] None
                  {| items := []; guideword_index := 0%nat |}
                = inr (tt, {| items := [txt "[verb] [P1] x"]; guideword_index := 0%nat |}))
      by (vm_compute; reflexivity).
    destruct (proj2 phrase_header_attached (txt "verb") None None [] 2%nat phrase_block_x [] None _ _ ltac:(reflexivity) H)
      as [new [En Fn]].
    cbn [items app] in En. subst new. exact (Forall_inv Fn).
Defined.
